(** * Object-oriented convex optimization: the OOCO notebook and the modeling core

    This development embeds the max-flow notebook
    [examples/notebooks/WWW/OOCO.ipynb] (the [Edge] and [Node] classes, the
    incidence-matrix problem and the object-composed problem) together with
    the parts of the CVXPY modeling core that the notebook relies on:
    expressions, constraints, their DCP and shape checks, the canonicalization
    of absolute value, the standard-form builder and the write-back of solved
    values. The modeling core is not part of the notebook; the definitions
    that model it say so in their doc comments. *)

From Stdlib Require Import Reals Lra List Bool Arith ZArith Lia Permutation.
Import ListNotations.

Open Scope R_scope.

(** ** Variables, expressions and constraints *)

(** A variable is either declared by user code ([Variable()] in the
    notebook) or synthesized by the canonicalizer. *)
Inductive var : Type :=
| User (n : nat)
| Aux (n : nat).

Definition var_eqb (a b : var) : bool :=
  match a, b with
  | User m, User n => Nat.eqb m n
  | Aux m, Aux n => Nat.eqb m n
  | _, _ => false
  end.

(** Scalar expression trees. A vector expression of the notebook (such as
    [flows = Variable(E-2)]) is the list of its entries. *)
Inductive expr : Type :=
| EVar (v : var)
| EConst (c : R)
| ENeg (e : expr)
| EAdd (e1 e2 : expr)
| EScale (c : R) (e : expr)
| EAbs (e : expr).

Inductive constr : Type :=
| CEq (l r : expr)
| CLe (l r : expr).

Fixpoint eval (rho : var -> R) (e : expr) : R :=
  match e with
  | EVar v => rho v
  | EConst c => c
  | ENeg e => - eval rho e
  | EAdd e1 e2 => eval rho e1 + eval rho e2
  | EScale c e => c * eval rho e
  | EAbs e => Rabs (eval rho e)
  end.

Definition holds (rho : var -> R) (k : constr) : Prop :=
  match k with
  | CEq l r => eval rho l = eval rho r
  | CLe l r => eval rho l <= eval rho r
  end.

(** ** Python values the notebook manipulates *)

(** A Python number or a CVXPY expression. *)
Inductive pyval : Type :=
| PyInt (z : Z)
| PyExpr (e : expr).

Definition to_expr (a : pyval) : expr :=
  match a with
  | PyInt z => EConst (IZR z)
  | PyExpr e => e
  end.

(** Python's [+]: two numbers add as numbers; as soon as one operand is an
    expression, the result is an expression. *)
Definition py_add (a b : pyval) : pyval :=
  match a, b with
  | PyInt x, PyInt y => PyInt (x + y)
  | PyInt x, PyExpr e => PyExpr (EAdd (EConst (IZR x)) e)
  | PyExpr e, PyInt y => PyExpr (EAdd e (EConst (IZR y)))
  | PyExpr e1, PyExpr e2 => PyExpr (EAdd e1 e2)
  end.

(** The result of Python's [==]: a plain [bool] between two numbers, a CVXPY
    constraint as soon as one side is an expression. *)
Inductive pycmp : Type :=
| PyBool (b : bool)
| PyConstr (k : constr).

Definition py_eq (a b : pyval) : pycmp :=
  match a, b with
  | PyInt x, PyInt y => PyBool (Z.eqb x y)
  | _, _ => PyConstr (CEq (to_expr a) (to_expr b))
  end.

(** [sum(f for f in xs)]: Python's [sum] starts from the integer [0]. *)
Definition py_sum (xs : list pyval) : pyval :=
  fold_left py_add xs (PyInt 0).

(** ** The [Edge] and [Node] classes *)

Record Edge : Type := mkEdge {
  capacity : R;
  flow : var
}.

Record Node : Type := mkNode {
  accumulation : pyval;
  edge_flows : list pyval
}.

(** [Node(accumulation=0)]: a fresh node with an empty [edge_flows]. *)
Definition Node_init (accumulation : pyval) : Node :=
  mkNode accumulation [].

Definition Node_default : Node := Node_init (PyInt 0).

(** [Edge.constraints]: [[abs(self.flow) <= self.capacity]]. *)
Definition Edge_constraints (e : Edge) : list pycmp :=
  [PyConstr (CLe (EAbs (EVar (flow e))) (EConst (capacity e)))].

(** [Node.constraints]: [[sum(f for f in self.edge_flows) == self.accumulation]]. *)
Definition Node_constraints (n : Node) : list pycmp :=
  [py_eq (py_sum (edge_flows n)) (accumulation n)].

(** Node objects live in a heap addressed by object identity, so that two
    names for the same node see each other's appends. *)
Definition heap : Type := nat -> Node.

Definition heap_upd (h : heap) (i : nat) (n : Node) : heap :=
  fun j => if Nat.eqb j i then n else h j.

Definition append_flow (n : Node) (f : pyval) : Node :=
  mkNode (accumulation n) (edge_flows n ++ [f]).

(** [Edge.connect(in_node, out_node)]: the two list appends, in order. *)
Definition Edge_connect (e : Edge) (in_node out_node : nat) (h : heap) : heap :=
  let h1 := heap_upd h in_node
              (append_flow (h in_node) (PyExpr (ENeg (EVar (flow e))))) in
  heap_upd h1 out_node (append_flow (h1 out_node) (PyExpr (EVar (flow e)))).

(** The duck-typed objects of [for obj in nodes + edges]. *)
Inductive contributor : Type :=
| CNode (n : Node)
| CEdge (e : Edge).

Definition contributor_constraints (o : contributor) : list pycmp :=
  match o with
  | CNode n => Node_constraints n
  | CEdge e => Edge_constraints e
  end.

(** [constraints = []; for obj in nodes + edges: constraints += obj.constraints()]. *)
Definition collect_constraints (objs : list contributor) : list pycmp :=
  fold_left (fun acc o => acc ++ contributor_constraints o) objs [].

(** ** Problems and optimal values *)

(** Modelled from the spec: the Problem Assembler takes the flat list the
    contributing objects return. An entry that is a CVXPY constraint must
    hold; an entry that is a plain Python [bool] (a comparison between two
    numbers, evaluated by Python before CVXPY sees it) is the relation it
    evaluated. *)
Definition holds_py (rho : var -> R) (k : pycmp) : Prop :=
  match k with
  | PyBool b => b = true
  | PyConstr k => holds rho k
  end.

Fixpoint all_hold {A : Type} (P : A -> Prop) (l : list A) : Prop :=
  match l with
  | [] => True
  | x :: l => P x /\ all_hold P l
  end.

Definition feasible (cs : list constr) (rho : var -> R) : Prop :=
  all_hold (holds rho) cs.

Definition feasible_py (cs : list pycmp) (rho : var -> R) : Prop :=
  all_hold (holds_py rho) cs.

Inductive objective : Type :=
| Maximize (e : expr)
| Minimize (e : expr).

(** [v] is the optimal value of the objective over the points satisfying
    [F]: it is attained by a feasible point and no feasible point beats it. *)
Definition is_opt_value (obj : objective) (F : (var -> R) -> Prop) (v : R) : Prop :=
  match obj with
  | Maximize e =>
      (exists rho, F rho /\ eval rho e = v) /\ (forall rho, F rho -> eval rho e <= v)
  | Minimize e =>
      (exists rho, F rho /\ eval rho e = v) /\ (forall rho, F rho -> v <= eval rho e)
  end.

(** ** The max-flow network of the notebook

    Four nodes [0..3] and five edges: the capacity-limited edges
    [e1 : 0 -> 1], [e2 : 1 -> 3] and [e3 : 0 -> 3] form the two paths from
    node 0 to node 3, the source edge enters node 0 and the sink edge leaves
    node 3. Three capacity-limited edges on four nodes leave one node (node 2)
    on no edge. Variables: [flows] is [User 0..2], [source] is [User 3] and
    [sink] is [User 4]. *)

Definition flows_vars : list expr := [EVar (User 0); EVar (User 1); EVar (User 2)].
Definition source_var : expr := EVar (User 3).
Definition sink_var : expr := EVar (User 4).

(** The incidence matrix: [A[i, j]] is +1 if edge [j] enters node [i], -1 if
    it leaves node [i]; the columns are [e1; e2; e3; source; sink]. *)
Definition A_inc : list (list R) :=
  [ [-1; 0; -1; 1; 0];
    [ 1; -1; 0; 0; 0];
    [ 0; 0; 0; 0; 0];
    [ 0; 1; 1; 0; -1] ].

(** One entry of the product [A*x]. *)
Fixpoint row_times (row : list R) (xs : list expr) : expr :=
  match row, xs with
  | a :: row, x :: xs => EAdd (EScale a x) (row_times row xs)
  | _, _ => EConst 0
  end.

Definition explicit_constraints (c : list R) : list pycmp :=
  map (fun row => PyConstr (CEq (row_times row (flows_vars ++ [source_var; sink_var]))
                                (EConst 0))) A_inc
  ++ map (fun f => PyConstr (CLe (EConst 0) f)) flows_vars
  ++ map (fun '(f, ci) => PyConstr (CLe f (EConst ci))) (combine flows_vars c).

(** [p = Problem(Maximize(source), [...])]. *)
Definition explicit_objective : objective := Maximize source_var.

(** The object-composed network. The source and the sink are nodes whose
    accumulation is a variable. *)
Definition src_node : Node := Node_init (PyExpr source_var).
Definition sink_node : Node := Node_init (PyExpr sink_var).

Definition net_heap0 : heap :=
  fun j => match j with 0 => src_node | 3 => sink_node | _ => Node_default end.

Definition edge1 (c1 : R) : Edge := mkEdge c1 (User 0).
Definition edge2 (c2 : R) : Edge := mkEdge c2 (User 1).
Definition edge3 (c3 : R) : Edge := mkEdge c3 (User 2).

Definition net_heap (c1 c2 c3 : R) : heap :=
  Edge_connect (edge3 c3) 0 3
    (Edge_connect (edge2 c2) 1 3
      (Edge_connect (edge1 c1) 0 1 net_heap0)).

Definition oo_constraints (c1 c2 c3 : R) : list pycmp :=
  let h := net_heap c1 c2 c3 in
  collect_constraints
    (map (fun j => CNode (h j)) [0; 1; 2; 3]%nat
     ++ [CEdge (edge1 c1); CEdge (edge2 c2); CEdge (edge3 c3)]).

(** [prob = Problem(Maximize(sink.accumulation), constraints)]. *)
Definition oo_objective (c1 c2 c3 : R) : objective :=
  Maximize (to_expr (accumulation (net_heap c1 c2 c3 3%nat))).

(** ** The modeling core: expressions with shape and curvature *)

(** Modelled from the spec: the error taxonomy of the modeling core. *)
Inductive error : Type :=
| ShapeMismatch
| DCPViolation
| UnsupportedAtom
| EmptyProblem.

Inductive result (A : Type) : Type :=
| Ok (a : A)
| Err (e : error).
Arguments Ok {A} a.
Arguments Err {A} e.

(** A shape: [[]] is a scalar, [[n]] a vector of length [n], and so on. *)
Definition shape : Type := list nat.

Fixpoint shape_eqb (s1 s2 : shape) : bool :=
  match s1, s2 with
  | [], [] => true
  | n1 :: s1, n2 :: s2 => Nat.eqb n1 n2 && shape_eqb s1 s2
  | _, _ => false
  end.

(** Modelled from the spec: the broadcast rule. A scalar combines with any
    shape, equal shapes combine elementwise, other shapes fail. *)
Definition broadcast (s1 s2 : shape) : result shape :=
  match s1, s2 with
  | [], _ => Ok s2
  | _, [] => Ok s1
  | _, _ => if shape_eqb s1 s2 then Ok s1 else Err ShapeMismatch
  end.

Definition compatible (s1 s2 : shape) : bool :=
  match broadcast s1 s2 with Ok _ => true | Err _ => false end.

Inductive curvature : Type := Affine | Convex | Concave | Nonconvex.
Inductive sign : Type := Nonneg | Nonpos | UnknownSign.

(** Modelled from the spec: an Expression carries its tree, its shape and
    its curvature and sign tags. *)
Record Expression : Type := mkExpression {
  ex_node : expr;
  ex_shape : shape;
  ex_curv : curvature;
  ex_sign : sign
}.

Definition Variable_ (v : var) (s : shape) : Expression :=
  mkExpression (EVar v) s Affine UnknownSign.

Definition Constant_ (c : R) (s : shape) : Expression :=
  mkExpression (EConst c) s Affine
    (if Rle_dec 0 c then Nonneg else Nonpos).

(** The fixed composition table. *)
Definition neg_curv (c : curvature) : curvature :=
  match c with
  | Convex => Concave
  | Concave => Convex
  | c => c
  end.

Definition neg_sign (s : sign) : sign :=
  match s with
  | Nonneg => Nonpos
  | Nonpos => Nonneg
  | UnknownSign => UnknownSign
  end.

Definition add_curv (c1 c2 : curvature) : curvature :=
  match c1, c2 with
  | Affine, c | c, Affine => c
  | Convex, Convex => Convex
  | Concave, Concave => Concave
  | _, _ => Nonconvex
  end.

Definition add_sign (s1 s2 : sign) : sign :=
  match s1, s2 with
  | Nonneg, Nonneg => Nonneg
  | Nonpos, Nonpos => Nonpos
  | _, _ => UnknownSign
  end.

Definition convex_or_affine (c : curvature) : bool :=
  match c with Affine | Convex => true | _ => false end.

Definition concave_or_affine (c : curvature) : bool :=
  match c with Affine | Concave => true | _ => false end.

(** Negation. *)
Definition mk_neg (a : Expression) : Expression :=
  mkExpression (ENeg (ex_node a)) (ex_shape a) (neg_curv (ex_curv a)) (neg_sign (ex_sign a)).

(** Scaling by a scalar constant. *)
Definition mk_scale (c : R) (a : Expression) : Expression :=
  if Rle_dec 0 c
  then mkExpression (EScale c (ex_node a)) (ex_shape a) (ex_curv a) (ex_sign a)
  else mkExpression (EScale c (ex_node a)) (ex_shape a)
         (neg_curv (ex_curv a)) (neg_sign (ex_sign a)).

(** Addition: shapes are checked first, then the tags are combined. *)
Definition mk_add (a b : Expression) : result Expression :=
  match broadcast (ex_shape a) (ex_shape b) with
  | Ok s => Ok (mkExpression (EAdd (ex_node a) (ex_node b)) s
                 (add_curv (ex_curv a) (ex_curv b)) (add_sign (ex_sign a) (ex_sign b)))
  | Err e => Err e
  end.

Definition mk_sub (a b : Expression) : result Expression := mk_add a (mk_neg b).

(** Modelled from the spec: absolute value is a convex, non-monotonic atom,
    so its result has a consistent curvature (convex) only when its argument
    is affine; any other argument fails with [DCPViolation]. *)
Definition mk_abs (a : Expression) : result Expression :=
  match ex_curv a with
  | Affine => Ok (mkExpression (EAbs (ex_node a)) (ex_shape a) Convex Nonneg)
  | _ => Err DCPViolation
  end.

(** Modelled from the spec: a Constraint is a relation with its operands,
    checked for shape (first) and for curvature when it is built. *)
Record Constraint : Type := mkConstraint {
  con : constr;
  con_shape : shape
}.

Definition mk_le (a b : Expression) : result Constraint :=
  match broadcast (ex_shape a) (ex_shape b) with
  | Err e => Err e
  | Ok s =>
      if convex_or_affine (add_curv (ex_curv a) (neg_curv (ex_curv b)))
      then Ok (mkConstraint (CLe (ex_node a) (ex_node b)) s)
      else Err DCPViolation
  end.

Definition mk_ge (a b : Expression) : result Constraint := mk_le b a.

Definition mk_eq (a b : Expression) : result Constraint :=
  match broadcast (ex_shape a) (ex_shape b) with
  | Err e => Err e
  | Ok s =>
      match ex_curv a, ex_curv b with
      | Affine, Affine => Ok (mkConstraint (CEq (ex_node a) (ex_node b)) s)
      | _, _ => Err DCPViolation
      end
  end.

Definition mk_minimize (a : Expression) : result objective :=
  if convex_or_affine (ex_curv a) then Ok (Minimize (ex_node a)) else Err DCPViolation.

Definition mk_maximize (a : Expression) : result objective :=
  if concave_or_affine (ex_curv a) then Ok (Maximize (ex_node a)) else Err DCPViolation.

(** The places where an expression must be convex: the objective of a
    minimization, the left side of [<=], the right side of [>=], and the
    argument of the absolute-value atom (which, being non-monotonic, needs
    an affine argument). *)
Inductive convex_position : Type :=
| PosMinimize
| PosLeLhs (rhs : Expression)
| PosGeRhs (lhs : Expression)
| PosAbsArg.

Definition position_shape_ok (p : convex_position) (a : Expression) : bool :=
  match p with
  | PosMinimize => true
  | PosLeLhs r => compatible (ex_shape a) (ex_shape r)
  | PosGeRhs l => compatible (ex_shape a) (ex_shape l)
  | PosAbsArg => true
  end.

Definition use_at (p : convex_position) (a : Expression) : result unit :=
  match p with
  | PosMinimize => match mk_minimize a with Ok _ => Ok tt | Err e => Err e end
  | PosLeLhs r => match mk_le a r with Ok _ => Ok tt | Err e => Err e end
  | PosGeRhs l => match mk_ge l a with Ok _ => Ok tt | Err e => Err e end
  | PosAbsArg => match mk_abs a with Ok _ => Ok tt | Err e => Err e end
  end.

(** A point that sets the five network variables. *)
Definition net_point (f1 f2 f3 s k : R) : var -> R :=
  fun v => match v with
           | User 0 => f1 | User 1 => f2 | User 2 => f3
           | User 3 => s | User 4 => k | _ => 0
           end.


(** ** The modeling core: canonicalization *)

Fixpoint no_atoms (e : expr) : bool :=
  match e with
  | EVar _ | EConst _ => true
  | ENeg e | EScale _ e => no_atoms e
  | EAdd e1 e2 => no_atoms e1 && no_atoms e2
  | EAbs _ => false
  end.

Definition constr_no_atoms (k : constr) : bool :=
  match k with CEq l r | CLe l r => no_atoms l && no_atoms r end.

Definition constrs_no_atoms (cs : list constr) : bool := forallb constr_no_atoms cs.

Fixpoint occurs (v : var) (e : expr) : bool :=
  match e with
  | EVar w => var_eqb v w
  | EConst _ => false
  | ENeg e | EScale _ e | EAbs e => occurs v e
  | EAdd e1 e2 => occurs v e1 || occurs v e2
  end.

Definition occurs_constr (v : var) (k : constr) : bool :=
  match k with CEq l r | CLe l r => occurs v l || occurs v r end.

Definition occurs_constrs (v : var) (cs : list constr) : bool :=
  existsb (occurs_constr v) cs.

(** Modelled from the spec: the Atom Canonicalizer. Children are rewritten
    before their parent; each [|x|] becomes a fresh auxiliary variable [t]
    (numbered by the counter threaded through the traversal) with the side
    constraints [-t <= x] and [x <= t]. *)
Fixpoint canon_expr (e : expr) (n : nat) : expr * list constr * nat :=
  match e with
  | EVar _ | EConst _ => (e, [], n)
  | ENeg e1 =>
      let '(e1', cs, n1) := canon_expr e1 n in (ENeg e1', cs, n1)
  | EAdd e1 e2 =>
      let '(e1', cs1, n1) := canon_expr e1 n in
      let '(e2', cs2, n2) := canon_expr e2 n1 in
      (EAdd e1' e2', cs1 ++ cs2, n2)
  | EScale c e1 =>
      let '(e1', cs, n1) := canon_expr e1 n in (EScale c e1', cs, n1)
  | EAbs e1 =>
      let '(x, cs, n1) := canon_expr e1 n in
      let t := EVar (Aux n1) in
      (t, cs ++ [CLe (ENeg t) x; CLe x t], S n1)
  end.

Definition canon_constr (k : constr) (n : nat) : list constr * nat :=
  match k with
  | CEq l r =>
      let '(l', cs1, n1) := canon_expr l n in
      let '(r', cs2, n2) := canon_expr r n1 in
      (CEq l' r' :: cs1 ++ cs2, n2)
  | CLe l r =>
      let '(l', cs1, n1) := canon_expr l n in
      let '(r', cs2, n2) := canon_expr r n1 in
      (CLe l' r' :: cs1 ++ cs2, n2)
  end.

Fixpoint canon_constrs (cs : list constr) (n : nat) : list constr * nat :=
  match cs with
  | [] => ([], n)
  | k :: cs =>
      let '(ks, n1) := canon_constr k n in
      let '(ks', n2) := canon_constrs cs n1 in
      (ks ++ ks', n2)
  end.

(** Modelled from the spec: the direct rewrite of [|x| <= c] into
    [-c <= x] and [x <= c]. *)
Definition canon_abs_le_direct (x c : expr) : list constr :=
  [CLe (ENeg c) x; CLe x c].

(** ** The modeling core: problems, standard form and solve *)

Record Problem : Type := mkProblem {
  objective_of : objective;
  constraints_of : list constr
}.

Definition obj_expr (o : objective) : expr :=
  match o with Maximize e | Minimize e => e end.

Definition obj_with (o : objective) (e : expr) : objective :=
  match o with Maximize _ => Maximize e | Minimize _ => Minimize e end.

Definition canon_problem (P : Problem) (n : nat) : Problem * nat :=
  let '(e', side, n1) := canon_expr (obj_expr (objective_of P)) n in
  let '(cs', n2) := canon_constrs (constraints_of P) n1 in
  (mkProblem (obj_with (objective_of P) e') (side ++ cs'), n2).

Fixpoint vars_expr (e : expr) : list var :=
  match e with
  | EVar v => [v]
  | EConst _ => []
  | ENeg e | EScale _ e | EAbs e => vars_expr e
  | EAdd e1 e2 => vars_expr e1 ++ vars_expr e2
  end.

Definition vars_constr (k : constr) : list var :=
  match k with CEq l r | CLe l r => vars_expr l ++ vars_expr r end.

Definition vars_problem (P : Problem) : list var :=
  vars_expr (obj_expr (objective_of P)) ++ flat_map vars_constr (constraints_of P).

(** First-seen order: each variable keeps the place of its first occurrence. *)
Fixpoint nodup_first (l : list var) : list var :=
  match l with
  | [] => []
  | v :: l => v :: filter (fun w => negb (var_eqb v w)) (nodup_first l)
  end.

Definition bind {A B : Type} (r : result A) (f : A -> result B) : result B :=
  match r with Ok a => f a | Err e => Err e end.

Notation "x <- r ;; k" := (bind r (fun x => k)) (at level 61, r at next level, right associativity).

(** A linear form: coefficients per variable (possibly repeated) and an offset. *)
Definition linform : Type := list (var * R) * R.

Definition lin_scale (c : R) (l : linform) : linform :=
  (map (fun '(v, a) => (v, c * a)) (fst l), c * snd l).

Definition lin_add (l1 l2 : linform) : linform :=
  (fst l1 ++ fst l2, snd l1 + snd l2).

Fixpoint lin (e : expr) : result linform :=
  match e with
  | EVar v => Ok ([(v, 1)], 0)
  | EConst c => Ok ([], c)
  | ENeg e => l <- lin e ;; Ok (lin_scale (-1) l)
  | EAdd e1 e2 => l1 <- lin e1 ;; l2 <- lin e2 ;; Ok (lin_add l1 l2)
  | EScale c e => l <- lin e ;; Ok (lin_scale c l)
  | EAbs _ => Err UnsupportedAtom
  end.

Definition coef (v : var) (terms : list (var * R)) : R :=
  fold_right (fun '(w, a) acc => if var_eqb v w then a + acc else acc) 0 terms.

(** One row of the global system: a coefficient per position, and the offset. *)
Definition row (ord : list var) (l : linform) : list R * R :=
  (map (fun v => coef v (fst l)) ord, snd l).

Record std_form : Type := mkStdForm {
  sf_vars : list var;
  sf_maximize : bool;
  sf_obj : list R * R;
  sf_eq : list (list R * R);
  sf_ineq : list (list R * R)
}.

Fixpoint rows_of (ord : list var) (cs : list constr)
    : result (list (list R * R) * list (list R * R)) :=
  match cs with
  | [] => Ok ([], [])
  | CEq l r :: cs =>
      f <- lin (EAdd l (ENeg r)) ;; rs <- rows_of ord cs ;;
      Ok (row ord f :: fst rs, snd rs)
  | CLe l r :: cs =>
      f <- lin (EAdd l (ENeg r)) ;; rs <- rows_of ord cs ;;
      Ok (fst rs, row ord f :: snd rs)
  end.

Definition is_max (o : objective) : bool :=
  match o with Maximize _ => true | Minimize _ => false end.

(** Modelled from the spec: the Standard-Form Builder over a canonical
    problem: first-seen variable order, then the objective row, the equality
    block and the inequality block ([lhs - rhs == 0], [lhs - rhs <= 0]). *)
Definition build_std (P : Problem) : result std_form :=
  let ord := nodup_first (vars_problem P) in
  fo <- lin (obj_expr (objective_of P)) ;;
  rs <- rows_of ord (constraints_of P) ;;
  Ok (mkStdForm ord (is_max (objective_of P)) (row ord fo) (fst rs) (snd rs)).

(** Canonicalize with fresh auxiliary variables numbered from [start], then
    build. *)
Definition standard_form (P : Problem) (start : nat) : result std_form :=
  build_std (fst (canon_problem P start)).

Fixpoint index_of (v : var) (l : list var) : option nat :=
  match l with
  | [] => None
  | w :: l => if var_eqb v w then Some 0%nat
              else match index_of v l with Some i => Some (S i) | None => None end
  end.

(** Modelled from the spec: a user Variable's slots, its shape and its
    solved value (initially unset). The store maps each user variable to its
    slots. *)
Record VarSlot : Type := mkSlot {
  var_shape : shape;
  var_value : option R
}.

Definition store : Type := nat -> VarSlot.

Definition slot_set (st : store) (n : nat) (x : R) : store :=
  fun m => if Nat.eqb m n then mkSlot (var_shape (st n)) (Some x) else st m.

(** Modelled from the spec: the write-back. Position [i] of the primal vector
    goes to the [i]-th variable of the ordering when it is a user variable;
    values at the positions of auxiliary variables are dropped. The second
    component logs the user variables written, in order. *)
Fixpoint scatter (ord : list var) (x : list R) (st : store) : store * list nat :=
  match ord, x with
  | User n :: ord, xi :: x =>
      let '(st', log) := scatter ord x (slot_set st n xi) in (st', n :: log)
  | Aux _ :: ord, _ :: x => scatter ord x st
  | _, _ => (st, [])
  end.

(** The external solver's answer. *)
Inductive solver_status : Type :=
| Optimal (x : list R)
| Infeasible
| Unbounded
| SolverError.

Inductive solve_outcome : Type :=
| Solved (st : store) (log : list nat)
| NotSolved (s : solver_status)
| BuildFailed (e : error).

(** Modelled from the spec: [problem.solve()] with the external solver given
    as a function of the standard form. *)
Definition solve (solver : std_form -> solver_status) (P : Problem) (start : nat)
    (st : store) : solve_outcome :=
  match standard_form P start with
  | Err e => BuildFailed e
  | Ok sf =>
      match solver sf with
      | Optimal x =>
          if Nat.eqb (length x) (length (sf_vars sf))
          then let '(st', log) := scatter (sf_vars sf) x st in Solved st' log
          else NotSolved SolverError
      | s => NotSolved s
      end
  end.

Definition problem_no_atoms (P : Problem) : bool :=
  no_atoms (obj_expr (objective_of P)) && constrs_no_atoms (constraints_of P).

Definition var_upd (rho : var -> R) (t : var) (r : R) : var -> R :=
  fun w => if var_eqb t w then r else rho w.

(** Renaming of auxiliary variables, used to compare two builds whose
    counters start at different values. *)
Definition ren_var (s : nat) (v : var) : var :=
  match v with User n => User n | Aux k => Aux (s + k) end.

Fixpoint ren_expr (s : nat) (e : expr) : expr :=
  match e with
  | EVar v => EVar (ren_var s v)
  | EConst c => EConst c
  | ENeg e => ENeg (ren_expr s e)
  | EAdd e1 e2 => EAdd (ren_expr s e1) (ren_expr s e2)
  | EScale c e => EScale c (ren_expr s e)
  | EAbs e => EAbs (ren_expr s e)
  end.

Definition ren_constr (s : nat) (k : constr) : constr :=
  match k with
  | CEq l r => CEq (ren_expr s l) (ren_expr s r)
  | CLe l r => CLe (ren_expr s l) (ren_expr s r)
  end.

Definition ren_problem (s : nat) (P : Problem) : Problem :=
  mkProblem (obj_with (objective_of P) (ren_expr s (obj_expr (objective_of P))))
            (map (ren_constr s) (constraints_of P)).

Definition ren_lin (s : nat) (l : linform) : linform :=
  (map (fun '(v, a) => (ren_var s v, a)) (fst l), snd l).

Definition is_user (v : var) : bool :=
  match v with User _ => true | Aux _ => false end.

(** A problem as user code builds it mentions no auxiliary variable. *)
Definition no_aux_problem (P : Problem) : bool := forallb is_user (vars_problem P).

Definition ren_sf (s : nat) (f : std_form) : std_form :=
  mkStdForm (map (ren_var s) (sf_vars f)) (sf_maximize f) (sf_obj f) (sf_eq f) (sf_ineq f).

(** ** Derived notions for the notebook code *)

(** The value a Python number or a CVXPY expression takes at a point. *)
Definition py_val (rho : var -> R) (a : pyval) : R := eval rho (to_expr a).

Definition py_is_int (a : pyval) : bool :=
  match a with PyInt _ => true | PyExpr _ => false end.

Fixpoint sum_R (l : list R) : R :=
  match l with [] => 0 | x :: l => x + sum_R l end.

(** A run of [edge.connect(node1, node2)] calls, one per edge, in order. *)
Definition connect_all (cs : list (Edge * nat * nat)) (h : heap) : heap :=
  fold_left (fun h '(e, a, b) => Edge_connect e a b h) cs h.

(** The entries the calls [cs] append to the [edge_flows] of node [i], in
    order. *)
Definition appended_flows (cs : list (Edge * nat * nat)) (i : nat) : list pyval :=
  flat_map (fun '(e, a, b) =>
              (if Nat.eqb a i then [PyExpr (ENeg (EVar (flow e)))] else [])
              ++ (if Nat.eqb b i then [PyExpr (EVar (flow e))] else [])) cs.

(** The incidence entry of the notebook's text for an edge from [a] to [b]
    at node [i]: +1 if the edge enters [i], -1 if it leaves [i]. *)
Definition incidence_entry (a b i : nat) : R :=
  (if Nat.eqb b i then 1 else 0) - (if Nat.eqb a i then 1 else 0).

(** The point [rho] with the value of [t] negated. *)
Definition negate_at (rho : var -> R) (t : var) : var -> R :=
  var_upd rho t (- rho t).

(** ** Proofs *)

Lemma explicit_feasible_iff c1 c2 c3 rho :
  feasible_py (explicit_constraints [c1; c2; c3]) rho <->
  (rho (User 3) = rho (User 0) + rho (User 2) /\ rho (User 0) = rho (User 1) /\
   rho (User 4) = rho (User 1) + rho (User 2) /\
   0 <= rho (User 0) <= c1 /\ 0 <= rho (User 1) <= c2 /\ 0 <= rho (User 2) <= c3).
Proof.
  unfold explicit_constraints, feasible_py; cbn.
  split; intuition lra.
Qed.

Lemma oo_feasible_iff c1 c2 c3 rho :
  feasible_py (oo_constraints c1 c2 c3) rho <->
  (rho (User 3) = - rho (User 0) - rho (User 2) /\ rho (User 0) = rho (User 1) /\
   rho (User 4) = rho (User 1) + rho (User 2) /\
   Rabs (rho (User 0)) <= c1 /\ Rabs (rho (User 1)) <= c2 /\ Rabs (rho (User 2)) <= c3).
Proof.
  unfold oo_constraints, feasible_py; cbn.
  split; intuition lra.
Qed.

Lemma explicit_opt_value c1 c2 c3 v :
  is_opt_value explicit_objective (feasible_py (explicit_constraints [c1; c2; c3])) v <->
  (0 <= c1 /\ 0 <= c2 /\ 0 <= c3 /\ v = Rmin c1 c2 + c3).
Proof.
  pose proof (Rmin_l c1 c2); pose proof (Rmin_r c1 c2).
  cbn [is_opt_value explicit_objective source_var eval].
  split.
  - intros [[rho [Hf Hv]] Hb].
    apply explicit_feasible_iff in Hf.
    assert (0 <= Rmin c1 c2) by (apply Rmin_glb; lra).
    assert (rho (User 0) <= Rmin c1 c2) by (apply Rmin_glb; lra).
    assert (Hp : feasible_py (explicit_constraints [c1; c2; c3])
                   (net_point (Rmin c1 c2) (Rmin c1 c2) c3
                      (Rmin c1 c2 + c3) (Rmin c1 c2 + c3))).
    { apply explicit_feasible_iff; cbn; lra. }
    specialize (Hb _ Hp); cbn in Hb. lra.
  - intros (H1 & H2 & H3 & ->).
    assert (0 <= Rmin c1 c2) by (apply Rmin_glb; lra).
    split.
    + exists (net_point (Rmin c1 c2) (Rmin c1 c2) c3 (Rmin c1 c2 + c3) (Rmin c1 c2 + c3)).
      split; [apply explicit_feasible_iff; cbn; lra | reflexivity].
    + intros rho Hf; apply explicit_feasible_iff in Hf.
      assert (rho (User 0) <= Rmin c1 c2) by (apply Rmin_glb; lra).
      lra.
Qed.

Lemma oo_opt_value c1 c2 c3 v :
  is_opt_value (oo_objective c1 c2 c3) (feasible_py (oo_constraints c1 c2 c3)) v <->
  (0 <= c1 /\ 0 <= c2 /\ 0 <= c3 /\ v = Rmin c1 c2 + c3).
Proof.
  pose proof (Rmin_l c1 c2); pose proof (Rmin_r c1 c2).
  change (oo_objective c1 c2 c3) with (Maximize sink_var).
  cbn [is_opt_value sink_var eval].
  split.
  - intros [[rho [Hf Hv]] Hb].
    apply oo_feasible_iff in Hf.
    destruct Hf as (E3 & E01 & E4 & A1 & A2 & A3).
    pose proof (Rabs_pos (rho (User 0))); pose proof (Rabs_pos (rho (User 1))).
    pose proof (Rabs_pos (rho (User 2))).
    pose proof (Rle_abs (rho (User 1))); pose proof (Rle_abs (rho (User 2))).
    assert (0 <= Rmin c1 c2) by (apply Rmin_glb; lra).
    assert (rho (User 1) <= Rmin c1 c2).
    { apply Rmin_glb; [rewrite <- E01; pose proof (Rle_abs (rho (User 0))) |]; lra. }
    assert (Hp : feasible_py (oo_constraints c1 c2 c3)
                   (net_point (Rmin c1 c2) (Rmin c1 c2) c3
                      (- (Rmin c1 c2 + c3)) (Rmin c1 c2 + c3))).
    { apply oo_feasible_iff; cbn.
      rewrite !Rabs_pos_eq by lra. lra. }
    specialize (Hb _ Hp); cbn in Hb. lra.
  - intros (H1 & H2 & H3 & ->).
    assert (0 <= Rmin c1 c2) by (apply Rmin_glb; lra).
    split.
    + exists (net_point (Rmin c1 c2) (Rmin c1 c2) c3 (- (Rmin c1 c2 + c3)) (Rmin c1 c2 + c3)).
      split; [|reflexivity].
      apply oo_feasible_iff; cbn.
      rewrite !Rabs_pos_eq by lra. lra.
    + intros rho Hf; apply oo_feasible_iff in Hf.
      destruct Hf as (E3 & E01 & E4 & A1 & A2 & A3).
      pose proof (Rle_abs (rho (User 0))); pose proof (Rle_abs (rho (User 1))).
      pose proof (Rle_abs (rho (User 2))).
      assert (rho (User 1) <= Rmin c1 c2) by (apply Rmin_glb; lra).
      lra.
Qed.

(** C1: for identical capacities, the incidence-matrix problem and the problem
    assembled from the [Edge] and [Node] objects of the 4-node, 5-edge network
    have the same optimal value (and neither has one when a capacity is
    negative). *)
Theorem flow_formulations_same_optimum (c1 c2 c3 v : R) :
  is_opt_value explicit_objective (feasible_py (explicit_constraints [c1; c2; c3])) v <->
  is_opt_value (oo_objective c1 c2 c3) (feasible_py (oo_constraints c1 c2 c3)) v.
Proof.
  rewrite explicit_opt_value, oo_opt_value. reflexivity.
Qed.

(** *** [Edge.connect] *)

Lemma heap_upd_same h i n : heap_upd h i n i = n.
Proof. unfold heap_upd; now rewrite Nat.eqb_refl. Qed.

Lemma heap_upd_other h i j n : j <> i -> heap_upd h i n j = h j.
Proof. intros H; unfold heap_upd; now rewrite (proj2 (Nat.eqb_neq j i) H). Qed.

(** C9 (as stated, refuted): connecting an edge from a node to that same
    node appends two elements, [-flow] and [flow], to its [edge_flows], not
    exactly one. *)
Lemma connect_self_loop_appends_two :
  let h' := Edge_connect (mkEdge 1 (User 0)) 0 0 (fun _ => Node_default) in
  edge_flows (h' 0%nat) = [PyExpr (ENeg (EVar (User 0))); PyExpr (EVar (User 0))] /\
  edge_flows (h' 0%nat) <> edge_flows Node_default ++ [PyExpr (ENeg (EVar (User 0)))].
Proof. cbn. split; [reflexivity | discriminate]. Qed.

(** C9 (amended): for two distinct nodes, [e.connect(n1, n2)] appends exactly
    [-e.flow] to [n1.edge_flows] and exactly [e.flow] to [n2.edge_flows]; when
    the same node is passed as both endpoints it receives both, [-e.flow]
    then [e.flow] (two elements). In every case the call leaves the
    accumulations and every other node unchanged, and the two appended terms
    cancel in the conservation sums. *)
Theorem connect_distinct_nodes (e : Edge) (h : heap) (n1 n2 : nat) :
  let h' := Edge_connect e n1 n2 h in
  (n1 <> n2 ->
     h' n1 = mkNode (accumulation (h n1)) (edge_flows (h n1) ++ [PyExpr (ENeg (EVar (flow e)))]) /\
     h' n2 = mkNode (accumulation (h n2)) (edge_flows (h n2) ++ [PyExpr (EVar (flow e))])) /\
  (n1 = n2 ->
     h' n1 = mkNode (accumulation (h n1))
               (edge_flows (h n1) ++ [PyExpr (ENeg (EVar (flow e))); PyExpr (EVar (flow e))])) /\
  (forall j, j <> n1 -> j <> n2 -> h' j = h j) /\
  (forall rho, eval rho (ENeg (EVar (flow e))) + eval rho (EVar (flow e)) = 0).
Proof.
  intros h'; unfold h', Edge_connect.
  split; [|split; [|split]].
  - intros Hne. split.
    + rewrite heap_upd_other by auto. now rewrite heap_upd_same.
    + rewrite heap_upd_same, heap_upd_other by auto. reflexivity.
  - intros <-. rewrite !heap_upd_same. unfold append_flow; cbn.
    now rewrite <- app_assoc.
  - intros j Hj1 Hj2. rewrite !heap_upd_other by auto. reflexivity.
  - intros rho; cbn; lra.
Qed.

Lemma connect_distinct_nodes_witness :
  let e := mkEdge 1 (User 0) in
  let h := fun _ : nat => Node_default in
  (0 <> 1)%nat /\
  Edge_connect e 0 1 h 0%nat = mkNode (PyInt 0) [PyExpr (ENeg (EVar (User 0)))] /\
  Edge_connect e 0 1 h 1%nat = mkNode (PyInt 0) [PyExpr (EVar (User 0))] /\
  (2 = 2)%nat /\
  Edge_connect e 2 2 h 2%nat =
    mkNode (PyInt 0) [PyExpr (ENeg (EVar (User 0))); PyExpr (EVar (User 0))] /\
  (forall j, j <> 2%nat -> Edge_connect e 2 2 h j = Node_default).
Proof.
  intros e h.
  assert (H01 : (0 <> 1)%nat) by lia.
  destruct (connect_distinct_nodes e h 0 1) as [D _].
  destruct (connect_distinct_nodes e h 2 2) as [_ [S [F _]]].
  destruct (D H01) as [D0 D1].
  split; [exact H01|]. split; [exact D0|]. split; [exact D1|].
  split; [reflexivity|]. split; [exact (S eq_refl)|].
  intros j Hj. exact (F j Hj Hj).
Defined.

(** *** [Node.constraints] *)

(** C10: a node with the default accumulation [0] and no flows returns the
    one-element list holding the Python comparison [0 == 0], that is the
    plain boolean [True], not a CVXPY constraint. *)
Theorem node_isolated_constraints (n : Node) :
  accumulation n = PyInt 0 -> edge_flows n = [] ->
  py_sum (edge_flows n) = PyInt 0 /\ Node_constraints n = [PyBool true].
Proof.
  intros Ha Hf. unfold Node_constraints. rewrite Ha, Hf. split; reflexivity.
Qed.

Lemma node_isolated_constraints_witness :
  accumulation Node_default = PyInt 0 /\ edge_flows Node_default = [] /\
  py_sum (edge_flows Node_default) = PyInt 0 /\ Node_constraints Node_default = [PyBool true].
Proof.
  split; [reflexivity|]. split; [reflexivity|].
  apply node_isolated_constraints; reflexivity.
Defined.

(** *** Shapes *)

Lemma shape_eqb_refl s : shape_eqb s s = true.
Proof. induction s; cbn; auto. now rewrite Nat.eqb_refl. Qed.

Lemma shape_eqb_eq s1 s2 : shape_eqb s1 s2 = true -> s1 = s2.
Proof.
  revert s2; induction s1 as [|n s1 IH]; intros [|m s2]; cbn; try discriminate; auto.
  intros H; apply andb_true_iff in H as [H1 H2].
  apply Nat.eqb_eq in H1; subst; f_equal; auto.
Qed.

Lemma broadcast_mismatch s1 s2 :
  s1 <> [] -> s2 <> [] -> s1 <> s2 -> broadcast s1 s2 = Err ShapeMismatch.
Proof.
  intros H1 H2 H3; destruct s1 as [|n1 s1]; [congruence|].
  destruct s2 as [|n2 s2]; [congruence|]; cbn.
  destruct (Nat.eqb n1 n2 && shape_eqb s1 s2) eqn:E; [|reflexivity].
  exfalso; apply H3. apply (shape_eqb_eq (n1 :: s1) (n2 :: s2)); exact E.
Qed.

(** C4: combining two expressions. A scalar operand takes the other
    operand's shape, equal non-scalar shapes combine elementwise with that
    shape, and mismatched non-scalar shapes fail with [ShapeMismatch] when the
    sum, the difference or the constraint is built. *)
Theorem broadcast_construction (a b : Expression) :
  (ex_shape a = [] ->
     exists r, mk_add a b = Ok r /\ ex_shape r = ex_shape b /\
               ex_node r = EAdd (ex_node a) (ex_node b)) /\
  (ex_shape b = [] ->
     exists r, mk_add a b = Ok r /\ ex_shape r = ex_shape a /\
               ex_node r = EAdd (ex_node a) (ex_node b)) /\
  (ex_shape a = ex_shape b ->
     exists r, mk_add a b = Ok r /\ ex_shape r = ex_shape a /\
               ex_node r = EAdd (ex_node a) (ex_node b)) /\
  (ex_shape a <> [] -> ex_shape b <> [] -> ex_shape a <> ex_shape b ->
     mk_add a b = Err ShapeMismatch /\ mk_sub a b = Err ShapeMismatch /\
     mk_le a b = Err ShapeMismatch /\ mk_eq a b = Err ShapeMismatch).
Proof.
  unfold mk_sub, mk_add, mk_le, mk_eq, mk_neg; cbn [ex_shape ex_node].
  split; [|split; [|split]].
  - intros Ha; rewrite Ha; cbn.
    eexists; split; [reflexivity | split; reflexivity].
  - intros Hb; rewrite Hb. destruct (ex_shape a); cbn;
      eexists; (split; [reflexivity | split; reflexivity]).
  - intros Hab; rewrite <- Hab. destruct (ex_shape a) as [|n s] eqn:E; cbn.
    + eexists; split; [reflexivity | split; reflexivity].
    + rewrite Nat.eqb_refl, shape_eqb_refl; cbn.
      eexists; split; [reflexivity | split; reflexivity].
  - intros H1 H2 H3. rewrite (broadcast_mismatch _ _ H1 H2 H3).
    repeat split; reflexivity.
Qed.

(** *** Curvature *)

(** C5: absolute value of an affine expression is tagged convex; the
    negation of a convex expression is tagged concave; and using that
    negation where convexity is required (minimized, on the left of [<=], on
    the right of [>=], or as the argument of absolute value) fails with
    [DCPViolation]. *)
Theorem negated_convex_rejected (x a : Expression) (p : convex_position) :
  ex_curv x = Affine -> ex_curv a = Convex -> position_shape_ok p (mk_neg a) = true ->
  (exists ax, mk_abs x = Ok ax /\ ex_curv ax = Convex) /\
  ex_curv (mk_neg a) = Concave /\
  use_at p (mk_neg a) = Err DCPViolation.
Proof.
  intros Hx Ha Hp.
  split; [|split].
  - unfold mk_abs; rewrite Hx. eexists; split; reflexivity.
  - cbn; now rewrite Ha.
  - destruct p as [|r|l|]; cbn in Hp |- *.
    + unfold mk_minimize; cbn; now rewrite Ha.
    + unfold mk_le, compatible in *; cbn.
      destruct (broadcast (ex_shape a) (ex_shape r)); [|discriminate].
      rewrite Ha; cbn. destruct (ex_curv r); reflexivity.
    + unfold mk_ge, mk_le, compatible in *; cbn.
      destruct (broadcast (ex_shape a) (ex_shape l)); [|discriminate].
      rewrite Ha; cbn. destruct (ex_curv l); reflexivity.
    + unfold mk_abs; cbn; now rewrite Ha.
Qed.

Lemma negated_convex_rejected_witness :
  let x := Variable_ (User 0) [] in
  let a := mkExpression (EAbs (EVar (User 0))) [] Convex Nonneg in
  let p := PosLeLhs (Constant_ 1 []) in
  (ex_curv x = Affine /\ ex_curv a = Convex /\ position_shape_ok p (mk_neg a) = true /\
   ((exists ax, mk_abs x = Ok ax /\ ex_curv ax = Convex) /\
    ex_curv (mk_neg a) = Concave /\ use_at p (mk_neg a) = Err DCPViolation)) /\
  (ex_curv x = Affine /\ ex_curv a = Convex /\ position_shape_ok PosAbsArg (mk_neg a) = true /\
   ((exists ax, mk_abs x = Ok ax /\ ex_curv ax = Convex) /\
    ex_curv (mk_neg a) = Concave /\ use_at PosAbsArg (mk_neg a) = Err DCPViolation)).
Proof.
  intros x a p.
  split; (split; [reflexivity|]); (split; [reflexivity|]); (split; [reflexivity|]).
  - apply negated_convex_rejected; reflexivity.
  - apply negated_convex_rejected; reflexivity.
Defined.

(** *** Canonicalization *)

Lemma var_eqb_refl v : var_eqb v v = true.
Proof. destruct v; apply Nat.eqb_refl. Qed.

Lemma var_eqb_eq a b : var_eqb a b = true <-> a = b.
Proof.
  destruct a, b; cbn; rewrite ?Nat.eqb_eq; split; congruence.
Qed.

Lemma canon_expr_no_atoms e n : no_atoms e = true -> canon_expr e n = (e, [], n).
Proof.
  revert n; induction e; intros n H; cbn in *; try reflexivity.
  - now rewrite IHe.
  - apply andb_true_iff in H as [H1 H2]. now rewrite IHe1, IHe2.
  - now rewrite IHe.
  - discriminate.
Qed.

Lemma canon_constr_no_atoms k n : constr_no_atoms k = true -> canon_constr k n = ([k], n).
Proof.
  destruct k as [l r | l r]; cbn; intros H; apply andb_true_iff in H as [H1 H2];
    rewrite (canon_expr_no_atoms l), (canon_expr_no_atoms r); auto.
Qed.

Lemma canon_constrs_no_atoms cs n : constrs_no_atoms cs = true -> canon_constrs cs n = (cs, n).
Proof.
  revert n; induction cs as [|k cs IH]; intros n H; cbn [canon_constrs]; [reflexivity|].
  change (constr_no_atoms k && constrs_no_atoms cs = true) in H.
  apply andb_true_iff in H as [H1 H2].
  rewrite canon_constr_no_atoms by exact H1. rewrite IH by exact H2. reflexivity.
Qed.

Lemma constrs_no_atoms_app cs1 cs2 :
  constrs_no_atoms (cs1 ++ cs2) = constrs_no_atoms cs1 && constrs_no_atoms cs2.
Proof. unfold constrs_no_atoms; apply forallb_app. Qed.

Lemma canon_expr_output e n :
  no_atoms (fst (fst (canon_expr e n))) = true /\
  constrs_no_atoms (snd (fst (canon_expr e n))) = true.
Proof.
  revert n; induction e; intros n; cbn [canon_expr]; auto.
  - specialize (IHe n); destruct (canon_expr e n) as [[? ?] ?]; exact IHe.
  - specialize (IHe1 n); destruct (canon_expr e1 n) as [[a cs1] n1].
    specialize (IHe2 n1); destruct (canon_expr e2 n1) as [[b cs2] n2].
    cbn [fst snd no_atoms] in *.
    rewrite constrs_no_atoms_app.
    destruct IHe1 as [-> ->], IHe2 as [-> ->]. auto.
  - specialize (IHe n); destruct (canon_expr e n) as [[? ?] ?]; exact IHe.
  - specialize (IHe n); destruct (canon_expr e n) as [[x cs] n1].
    cbn [fst snd no_atoms] in *.
    rewrite constrs_no_atoms_app. destruct IHe as [H1 ->].
    cbn; rewrite H1; auto.
Qed.

Lemma canon_constr_output k n : constrs_no_atoms (fst (canon_constr k n)) = true.
Proof.
  destruct k as [l r | l r]; cbn [canon_constr];
  pose proof (canon_expr_output l n) as Hl; destruct (canon_expr l n) as [[l' cs1] n1];
  pose proof (canon_expr_output r n1) as Hr; destruct (canon_expr r n1) as [[r' cs2] n2];
  cbn [fst snd] in *; destruct Hl as [Hl1 Hl2]; destruct Hr as [Hr1 Hr2];
  change (constr_no_atoms (CEq l' r') && constrs_no_atoms (cs1 ++ cs2) = true) ||
  change (constr_no_atoms (CLe l' r') && constrs_no_atoms (cs1 ++ cs2) = true);
  rewrite constrs_no_atoms_app, Hl2, Hr2; cbn; rewrite Hl1, Hr1; reflexivity.
Qed.

Lemma canon_constrs_output cs n : constrs_no_atoms (fst (canon_constrs cs n)) = true.
Proof.
  revert n; induction cs as [|k cs IH]; intros n; cbn [canon_constrs]; [reflexivity|].
  pose proof (canon_constr_output k n) as Hk; destruct (canon_constr k n) as [ks n1].
  specialize (IH n1); destruct (canon_constrs cs n1) as [ks' n2]; cbn [fst] in *.
  rewrite constrs_no_atoms_app, Hk, IH. reflexivity.
Qed.

Lemma obj_with_expr o : obj_with o (obj_expr o) = o.
Proof. destruct o; reflexivity. Qed.

(** C3: canonicalization changes nothing on expressions, constraint lists and
    problems that hold no atom: same tree, no side constraint, no auxiliary
    variable drawn from the counter. Running it on its own output is the
    identity as well. *)
Theorem canon_idempotent (e : expr) (cs : list constr) (P : Problem) (n : nat) :
  no_atoms e = true -> constrs_no_atoms cs = true -> problem_no_atoms P = true ->
  canon_expr e n = (e, [], n) /\
  canon_constrs cs n = (cs, n) /\
  canon_problem P n = (P, n) /\
  (forall ds m k, canon_constrs (fst (canon_constrs ds m)) k = (fst (canon_constrs ds m), k)).
Proof.
  intros He Hcs HP.
  split; [now apply canon_expr_no_atoms|].
  split; [now apply canon_constrs_no_atoms|].
  split.
  - destruct P as [o ks]; unfold problem_no_atoms, canon_problem in *; cbn in *.
    apply andb_true_iff in HP as [H1 H2].
    rewrite canon_expr_no_atoms by exact H1.
    rewrite canon_constrs_no_atoms by exact H2.
    cbn; now rewrite obj_with_expr.
  - intros ds m k. apply canon_constrs_no_atoms, canon_constrs_output.
Qed.

Lemma canon_idempotent_witness :
  no_atoms (EVar (User 0)) = true /\ constrs_no_atoms [CLe (EVar (User 0)) (EConst 1)] = true /\
  problem_no_atoms (mkProblem (Minimize (EVar (User 0))) [CLe (EConst 0) (EVar (User 0))]) = true /\
  (canon_expr (EVar (User 0)) 0 = (EVar (User 0), [], 0%nat) /\
   canon_constrs [CLe (EVar (User 0)) (EConst 1)] 0 = ([CLe (EVar (User 0)) (EConst 1)], 0%nat) /\
   canon_problem (mkProblem (Minimize (EVar (User 0))) [CLe (EConst 0) (EVar (User 0))]) 0 =
     (mkProblem (Minimize (EVar (User 0))) [CLe (EConst 0) (EVar (User 0))], 0%nat) /\
   (forall ds m k, canon_constrs (fst (canon_constrs ds m)) k = (fst (canon_constrs ds m), k))).
Proof.
  split; [reflexivity|]. split; [reflexivity|]. split; [reflexivity|].
  apply canon_idempotent; reflexivity.
Defined.

(** *** Equivalence of the absolute-value rewrites *)

Lemma all_hold_app {A : Type} (P : A -> Prop) l1 l2 :
  all_hold P (l1 ++ l2) <-> all_hold P l1 /\ all_hold P l2.
Proof. induction l1; cbn; intuition. Qed.

Lemma eval_upd_fresh rho t r e :
  occurs t e = false -> eval (var_upd rho t r) e = eval rho e.
Proof.
  induction e; cbn; intros H; try reflexivity.
  - unfold var_upd; now rewrite H.
  - now rewrite IHe.
  - apply orb_false_iff in H as [H1 H2]. now rewrite IHe1, IHe2.
  - now rewrite IHe.
  - now rewrite IHe.
Qed.

Lemma feasible_upd_fresh rho t r cs :
  occurs_constrs t cs = false -> feasible cs (var_upd rho t r) <-> feasible cs rho.
Proof.
  unfold feasible; induction cs as [|k cs IH]; cbn; [tauto|].
  intros H; apply orb_false_iff in H as [Hk Hcs].
  rewrite (IH Hcs).
  destruct k as [l r' | l r']; cbn in Hk |- *; apply orb_false_iff in Hk as [Hl Hr];
    rewrite !eval_upd_fresh by assumption; tauto.
Qed.

Lemma occurs_constrs_app t cs1 cs2 :
  occurs_constrs t (cs1 ++ cs2) = occurs_constrs t cs1 || occurs_constrs t cs2.
Proof. unfold occurs_constrs; apply existsb_app. Qed.

(** Two feasible sets that reach the same objective values have the same
    optimal value. *)
Lemma opt_value_transfer o F G v :
  (forall rho, F rho -> exists rho', G rho' /\ eval rho' (obj_expr o) = eval rho (obj_expr o)) ->
  (forall rho, G rho -> exists rho', F rho' /\ eval rho' (obj_expr o) = eval rho (obj_expr o)) ->
  is_opt_value o F v <-> is_opt_value o G v.
Proof.
  intros FG GF; destruct o as [e | e]; cbn in *; split.
  - intros [[rho [Hr Hv]] Hb]; split.
    + destruct (FG rho Hr) as [rho' [Hr' He]]. exists rho'; split; congruence.
    + intros rho' Hr'. destruct (GF rho' Hr') as [r [Hr'' He]]. rewrite <- He; auto.
  - intros [[rho [Hr Hv]] Hb]; split.
    + destruct (GF rho Hr) as [rho' [Hr' He]]. exists rho'; split; congruence.
    + intros rho' Hr'. destruct (FG rho' Hr') as [r [Hr'' He]]. rewrite <- He; auto.
  - intros [[rho [Hr Hv]] Hb]; split.
    + destruct (FG rho Hr) as [rho' [Hr' He]]. exists rho'; split; congruence.
    + intros rho' Hr'. destruct (GF rho' Hr') as [r [Hr'' He]]. rewrite <- He; auto.
  - intros [[rho [Hr Hv]] Hb]; split.
    + destruct (GF rho Hr) as [rho' [Hr' He]]. exists rho'; split; congruence.
    + intros rho' Hr'. destruct (FG rho' Hr') as [r [Hr'' He]]. rewrite <- He; auto.
Qed.

Lemma Rabs_le_iff a b : Rabs a <= b <-> - b <= a /\ a <= b.
Proof. unfold Rabs; destruct (Rcase_abs a); split; intros; lra. Qed.

(** C2: in any minimization, replacing the constraint [|x| <= c] (with [x]
    and [c] free of atoms) by the canonicalizer's output
    [t <= c], [-t <= x], [x <= t] for a fresh auxiliary [t], or by the direct
    rewrite [-c <= x], [x <= c], leaves the optimal value unchanged. *)
Theorem abs_le_canon_same_optimum (obj x c : expr) (cs1 cs2 : list constr) (k : nat) (v : R) :
  occurs (Aux k) obj = false -> occurs_constrs (Aux k) (cs1 ++ cs2) = false ->
  occurs (Aux k) x = false -> occurs (Aux k) c = false ->
  no_atoms x = true -> no_atoms c = true ->
  fst (canon_constr (CLe (EAbs x) c) k) =
    [CLe (EVar (Aux k)) c; CLe (ENeg (EVar (Aux k))) x; CLe x (EVar (Aux k))] /\
  (is_opt_value (Minimize obj) (feasible (cs1 ++ [CLe (EAbs x) c] ++ cs2)) v <->
   is_opt_value (Minimize obj) (feasible (cs1 ++ fst (canon_constr (CLe (EAbs x) c) k) ++ cs2)) v) /\
  (is_opt_value (Minimize obj) (feasible (cs1 ++ [CLe (EAbs x) c] ++ cs2)) v <->
   is_opt_value (Minimize obj) (feasible (cs1 ++ canon_abs_le_direct x c ++ cs2)) v).
Proof.
  intros Hobj Hcs Hx Hc Ax Ac.
  rewrite occurs_constrs_app in Hcs; apply orb_false_iff in Hcs as [Hcs1 Hcs2].
  assert (Hcan : fst (canon_constr (CLe (EAbs x) c) k) =
    [CLe (EVar (Aux k)) c; CLe (ENeg (EVar (Aux k))) x; CLe x (EVar (Aux k))]).
  { cbn [canon_constr canon_expr]. rewrite !canon_expr_no_atoms by assumption.
    reflexivity. }
  split; [exact Hcan|]. rewrite Hcan. unfold canon_abs_le_direct.
  split; apply opt_value_transfer; cbn [obj_expr]; unfold feasible;
    intros rho H; rewrite !all_hold_app in H; cbn [all_hold holds eval] in H.
  - exists (var_upd rho (Aux k) (Rabs (eval rho x))).
    rewrite !all_hold_app; cbn [all_hold holds eval].
    pose proof (feasible_upd_fresh rho (Aux k) (Rabs (eval rho x)) cs1 Hcs1) as F1.
    pose proof (feasible_upd_fresh rho (Aux k) (Rabs (eval rho x)) cs2 Hcs2) as F2.
    unfold feasible in F1, F2.
    rewrite F1, F2, !eval_upd_fresh by assumption.
    unfold var_upd at 1 2 3; rewrite var_eqb_refl.
    pose proof (Rle_abs (eval rho x)); pose proof (Rabs_le_iff (eval rho x) (Rabs (eval rho x))).
    intuition lra.
  - exists rho; split; [|reflexivity].
    rewrite !all_hold_app; cbn [all_hold holds eval].
    destruct H as (H1 & (Ht & Hn & Hp & _) & H2).
    split; [exact H1|]. split; [|exact H2]. split; [|exact I].
    apply Rle_trans with (rho (Aux k)); [|exact Ht].
    apply Rabs_le_iff; lra.
  - exists rho; split; [|reflexivity].
    rewrite !all_hold_app; cbn [all_hold holds eval].
    destruct H as (H1 & (Ha & _) & H2). apply Rabs_le_iff in Ha.
    intuition.
  - exists rho; split; [|reflexivity].
    rewrite !all_hold_app; cbn [all_hold holds eval].
    destruct H as (H1 & (Hn & Hp & _) & H2).
    split; [exact H1|]. split; [|exact H2]. split; [|exact I].
    apply Rabs_le_iff; lra.
Qed.

Lemma abs_le_canon_same_optimum_witness :
  let x := EVar (User 0) in let c := EConst 1 in let obj := EVar (User 0) in
  occurs (Aux 0) obj = false /\ occurs_constrs (Aux 0) ([] ++ []) = false /\
  occurs (Aux 0) x = false /\ occurs (Aux 0) c = false /\
  no_atoms x = true /\ no_atoms c = true /\
  (fst (canon_constr (CLe (EAbs x) c) 0) =
    [CLe (EVar (Aux 0)) c; CLe (ENeg (EVar (Aux 0))) x; CLe x (EVar (Aux 0))] /\
  (is_opt_value (Minimize obj) (feasible ([] ++ [CLe (EAbs x) c] ++ [])) (-1) <->
   is_opt_value (Minimize obj) (feasible ([] ++ fst (canon_constr (CLe (EAbs x) c) 0) ++ [])) (-1)) /\
  (is_opt_value (Minimize obj) (feasible ([] ++ [CLe (EAbs x) c] ++ [])) (-1) <->
   is_opt_value (Minimize obj) (feasible ([] ++ canon_abs_le_direct x c ++ [])) (-1))).
Proof.
  intros x c obj.
  do 6 (split; [reflexivity|]).
  apply abs_le_canon_same_optimum; reflexivity.
Defined.

(** *** Redundant constraints *)

Lemma all_hold_In {A : Type} (P : A -> Prop) l x : all_hold P l -> In x l -> P x.
Proof.
  induction l as [|y l IH]; cbn; [tauto|].
  intros [Hy Hl] [<- | Hin]; auto.
Qed.

Lemma all_hold_incl {A : Type} (P : A -> Prop) l1 l2 :
  (forall x, In x l2 -> In x l1) -> all_hold P l1 -> all_hold P (l1 ++ l2).
Proof.
  intros Hinc H1. apply all_hold_app; split; [exact H1|].
  clear -Hinc H1. induction l2 as [|y l2 IH]; cbn; [exact I|].
  split.
  - apply (all_hold_In P l1); [exact H1|]. apply Hinc; now left.
  - apply IH. intros x Hx; apply Hinc; now right.
Qed.

Lemma collect_constraints_concat objs :
  collect_constraints objs = concat (map contributor_constraints objs).
Proof.
  unfold collect_constraints.
  assert (G : forall acc, fold_left (fun acc o => acc ++ contributor_constraints o) objs acc
                          = acc ++ concat (map contributor_constraints objs)).
  { induction objs as [|o objs IH]; intros acc; cbn; [now rewrite app_nil_r|].
    rewrite IH, app_assoc. reflexivity. }
  apply G.
Qed.

Lemma opt_value_same_feasible o F G v :
  (forall rho, F rho <-> G rho) -> is_opt_value o F v <-> is_opt_value o G v.
Proof.
  intros FG; apply opt_value_transfer; intros rho H; exists rho; split;
    [apply FG | | apply FG | ]; auto.
Qed.

(** C7: appending a constraint that is already in the list, or the
    constraints of an object already in the contributor list, leaves the
    optimal value unchanged; the assembler appends the duplicate as it is. *)
Theorem redundant_constraint_same_optimum (obj : objective) (cs : list pycmp) (k : pycmp)
    (objs : list contributor) (o : contributor) (v : R) :
  In k cs -> In o objs ->
  (is_opt_value obj (feasible_py (cs ++ [k])) v <-> is_opt_value obj (feasible_py cs) v) /\
  collect_constraints (objs ++ [o]) = collect_constraints objs ++ contributor_constraints o /\
  (is_opt_value obj (feasible_py (collect_constraints (objs ++ [o]))) v <->
   is_opt_value obj (feasible_py (collect_constraints objs)) v).
Proof.
  intros Hk Ho.
  assert (Hcol : collect_constraints (objs ++ [o]) =
                 collect_constraints objs ++ contributor_constraints o).
  { rewrite !collect_constraints_concat, map_app, concat_app; cbn.
    now rewrite app_nil_r. }
  split; [|split; [exact Hcol|]].
  - apply opt_value_same_feasible; intros rho; unfold feasible_py; split.
    + intros H; apply all_hold_app in H; tauto.
    + apply all_hold_incl. intros x [<- | []]; exact Hk.
  - rewrite Hcol. apply opt_value_same_feasible; intros rho; unfold feasible_py; split.
    + intros H; apply all_hold_app in H; tauto.
    + apply all_hold_incl. intros x Hx.
      rewrite collect_constraints_concat. apply in_concat.
      exists (contributor_constraints o); split; [apply in_map; exact Ho | exact Hx].
Qed.

Lemma redundant_constraint_same_optimum_witness :
  let cs := Edge_constraints (edge1 1) in
  let objs := [CEdge (edge1 1)] in
  In (PyConstr (CLe (EAbs (EVar (User 0))) (EConst 1))) cs /\ In (CEdge (edge1 1)) objs /\
  ((is_opt_value (Maximize (EVar (User 0))) (feasible_py (cs ++ [PyConstr (CLe (EAbs (EVar (User 0))) (EConst 1))])) 1 <->
    is_opt_value (Maximize (EVar (User 0))) (feasible_py cs) 1) /\
   collect_constraints (objs ++ [CEdge (edge1 1)]) =
     collect_constraints objs ++ contributor_constraints (CEdge (edge1 1)) /\
   (is_opt_value (Maximize (EVar (User 0))) (feasible_py (collect_constraints (objs ++ [CEdge (edge1 1)]))) 1 <->
    is_opt_value (Maximize (EVar (User 0))) (feasible_py (collect_constraints objs)) 1)).
Proof.
  intros cs objs.
  split; [now left|]. split; [now left|].
  apply redundant_constraint_same_optimum; now left.
Defined.

(** *** Determinism of the standard form *)

Lemma ren_expr_user s e : forallb is_user (vars_expr e) = true -> ren_expr s e = e.
Proof.
  induction e; cbn; intros H; try reflexivity.
  - destruct v; cbn in *; [reflexivity | discriminate].
  - now rewrite IHe.
  - rewrite forallb_app in H; apply andb_true_iff in H as [H1 H2].
    now rewrite IHe1, IHe2.
  - now rewrite IHe.
  - now rewrite IHe.
Qed.

Lemma canon_expr_ren s e : forallb is_user (vars_expr e) = true ->
  forall m e' cs n', canon_expr e m = (e', cs, n') ->
  canon_expr e (s + m) = (ren_expr s e', map (ren_constr s) cs, (s + n')%nat).
Proof.
  induction e; cbn [vars_expr canon_expr]; intros H m e' cs n' E.
  - inversion E; subst. destruct v; cbn in H |- *; [reflexivity | discriminate].
  - inversion E; subst. reflexivity.
  - destruct (canon_expr e m) as [[a cs1] n1] eqn:E1. inversion E; subst.
    now rewrite (IHe H m a cs n' E1).
  - rewrite forallb_app in H; apply andb_true_iff in H as [H1 H2].
    destruct (canon_expr e1 m) as [[a cs1] n1] eqn:E1.
    destruct (canon_expr e2 n1) as [[b cs2] n2] eqn:E2. inversion E; subst.
    rewrite (IHe1 H1 m a cs1 n1 E1), (IHe2 H2 n1 b cs2 n' E2).
    now rewrite map_app.
  - destruct (canon_expr e m) as [[a cs1] n1] eqn:E1. inversion E; subst.
    now rewrite (IHe H m a cs n' E1).
  - destruct (canon_expr e m) as [[a cs1] n1] eqn:E1. inversion E; subst.
    rewrite (IHe H m a cs1 n1 E1).
    rewrite map_app, Nat.add_succ_r. reflexivity.
Qed.

Lemma canon_constr_ren s k : forallb is_user (vars_constr k) = true ->
  forall m ks n', canon_constr k m = (ks, n') ->
  canon_constr k (s + m) = (map (ren_constr s) ks, (s + n')%nat).
Proof.
  destruct k as [l r | l r]; cbn [vars_constr canon_constr]; intros H m ks n' E;
  rewrite forallb_app in H; apply andb_true_iff in H as [H1 H2];
  destruct (canon_expr l m) as [[a cs1] n1] eqn:E1;
  destruct (canon_expr r n1) as [[b cs2] n2] eqn:E2; inversion E; subst;
  rewrite (canon_expr_ren s l H1 m a cs1 n1 E1), (canon_expr_ren s r H2 n1 b cs2 n' E2);
  cbn; now rewrite map_app.
Qed.

Lemma canon_constrs_ren s cs : forallb is_user (flat_map vars_constr cs) = true ->
  forall m ks n', canon_constrs cs m = (ks, n') ->
  canon_constrs cs (s + m) = (map (ren_constr s) ks, (s + n')%nat).
Proof.
  induction cs as [|k cs IH]; cbn [flat_map canon_constrs]; intros H m ks n' E.
  - inversion E; subst; reflexivity.
  - rewrite forallb_app in H; apply andb_true_iff in H as [H1 H2].
    destruct (canon_constr k m) as [ks1 n1] eqn:E1.
    destruct (canon_constrs cs n1) as [ks2 n2] eqn:E2. inversion E; subst.
    rewrite (canon_constr_ren s k H1 m ks1 n1 E1), (IH H2 n1 ks2 n' E2).
    now rewrite map_app.
Qed.

Lemma obj_expr_with o e : obj_expr (obj_with o e) = e.
Proof. destruct o; reflexivity. Qed.

Lemma obj_with_with o e1 e2 : obj_with (obj_with o e1) e2 = obj_with o e2.
Proof. destruct o; reflexivity. Qed.

Lemma canon_problem_ren s P : no_aux_problem P = true ->
  fst (canon_problem P s) = ren_problem s (fst (canon_problem P 0)).
Proof.
  unfold no_aux_problem, vars_problem; intros H.
  rewrite forallb_app in H; apply andb_true_iff in H as [H1 H2].
  unfold canon_problem.
  destruct (canon_expr (obj_expr (objective_of P)) 0) as [[a cs1] n1] eqn:E1.
  destruct (canon_constrs (constraints_of P) n1) as [ks n2] eqn:E2.
  pose proof (canon_expr_ren s _ H1 0 a cs1 n1 E1) as R1; rewrite Nat.add_0_r in R1.
  rewrite R1, (canon_constrs_ren s _ H2 n1 ks n2 E2).
  unfold ren_problem; cbn. rewrite obj_expr_with, obj_with_with, map_app. reflexivity.
Qed.

Lemma var_eqb_ren s a b : var_eqb (ren_var s a) (ren_var s b) = var_eqb a b.
Proof.
  destruct a as [m|m], b as [n|n]; cbn; try reflexivity.
  destruct (Nat.eqb m n) eqn:E.
  - apply Nat.eqb_eq in E; subst; apply Nat.eqb_refl.
  - apply Nat.eqb_neq in E; apply Nat.eqb_neq; lia.
Qed.

Lemma vars_expr_ren s e : vars_expr (ren_expr s e) = map (ren_var s) (vars_expr e).
Proof.
  induction e; cbn; try reflexivity; try assumption.
  now rewrite IHe1, IHe2, map_app.
Qed.

Lemma vars_problem_ren s P :
  vars_problem (ren_problem s P) = map (ren_var s) (vars_problem P).
Proof.
  unfold vars_problem, ren_problem; cbn [objective_of constraints_of].
  rewrite obj_expr_with, vars_expr_ren, map_app. f_equal.
  induction (constraints_of P) as [|k cs IH]; cbn; [reflexivity|].
  rewrite IH, map_app. f_equal.
  destruct k; cbn; now rewrite !vars_expr_ren, map_app.
Qed.

Lemma nodup_first_ren s l : nodup_first (map (ren_var s) l) = map (ren_var s) (nodup_first l).
Proof.
  induction l as [|v l IH]; cbn; [reflexivity|].
  rewrite IH. f_equal. clear IH.
  induction (nodup_first l) as [|w ws IHw]; cbn; [reflexivity|].
  rewrite var_eqb_ren. destruct (negb (var_eqb v w)); cbn; now rewrite IHw.
Qed.

Lemma ren_lin_scale s c l : lin_scale c (ren_lin s l) = ren_lin s (lin_scale c l).
Proof.
  destruct l as [t off]; unfold lin_scale, ren_lin; cbn. f_equal.
  rewrite !map_map. apply map_ext. intros [v a]; reflexivity.
Qed.

Lemma ren_lin_add s l1 l2 : lin_add (ren_lin s l1) (ren_lin s l2) = ren_lin s (lin_add l1 l2).
Proof. destruct l1, l2; unfold lin_add, ren_lin; cbn. now rewrite map_app. Qed.

Lemma lin_ren s e : lin (ren_expr s e) = bind (lin e) (fun l => Ok (ren_lin s l)).
Proof.
  induction e; cbn [ren_expr lin]; try reflexivity.
  - rewrite IHe; destruct (lin e); cbn; [now rewrite ren_lin_scale | reflexivity].
  - rewrite IHe1, IHe2; destruct (lin e1); cbn; [|reflexivity].
    destruct (lin e2); cbn; [now rewrite ren_lin_add | reflexivity].
  - rewrite IHe; destruct (lin e); cbn; [now rewrite ren_lin_scale | reflexivity].
Qed.

Lemma coef_ren s v t :
  coef (ren_var s v) (map (fun '(w, a) => (ren_var s w, a)) t) = coef v t.
Proof.
  induction t as [|[w a] t IH]; cbn; [reflexivity|].
  rewrite var_eqb_ren. fold (coef v t). unfold coef in IH |- *. rewrite IH. reflexivity.
Qed.

Lemma row_ren s ord l : row (map (ren_var s) ord) (ren_lin s l) = row ord l.
Proof.
  destruct l as [t off]; unfold row, ren_lin; cbn. f_equal.
  rewrite map_map. apply map_ext. intros v; apply coef_ren.
Qed.

Lemma rows_of_ren s ord cs :
  rows_of (map (ren_var s) ord) (map (ren_constr s) cs) = rows_of ord cs.
Proof.
  induction cs as [|[l r | l r] cs IH]; cbn [map rows_of ren_constr]; [reflexivity| |];
  change (EAdd (ren_expr s l) (ENeg (ren_expr s r))) with (ren_expr s (EAdd l (ENeg r)));
  rewrite lin_ren; destruct (lin (EAdd l (ENeg r))); cbn; try reflexivity;
  rewrite IH; destruct (rows_of ord cs); cbn; try reflexivity; now rewrite row_ren.
Qed.

Lemma is_max_with o e : is_max (obj_with o e) = is_max o.
Proof. destruct o; reflexivity. Qed.

Lemma build_std_ren s P :
  build_std (ren_problem s P) = bind (build_std P) (fun f => Ok (ren_sf s f)).
Proof.
  unfold build_std. rewrite vars_problem_ren, nodup_first_ren.
  unfold ren_problem; cbn [objective_of constraints_of].
  rewrite obj_expr_with, is_max_with, lin_ren.
  destruct (lin (obj_expr (objective_of P))); cbn; [|reflexivity].
  rewrite rows_of_ren. destruct (rows_of _ (constraints_of P)); cbn; [|reflexivity].
  now rewrite row_ren.
Qed.

Lemma standard_form_ren s P : no_aux_problem P = true ->
  standard_form P s = bind (standard_form P 0) (fun f => Ok (ren_sf s f)).
Proof.
  intros H; unfold standard_form. rewrite canon_problem_ren by exact H.
  apply build_std_ren.
Qed.

Lemma index_of_ren s v l : index_of (ren_var s v) (map (ren_var s) l) = index_of v l.
Proof.
  induction l as [|w l IH]; cbn; [reflexivity|].
  rewrite var_eqb_ren, IH. reflexivity.
Qed.

(** C6: two builds of the same (unmodified, user-built) problem, whatever
    the value of the auxiliary-variable counter at each build, give the same
    objective row, the same equality and inequality blocks, the same number
    of positions, the same position to every user variable, and the same
    position to the [k]-th auxiliary variable of each build. *)
Theorem standard_form_deterministic (P : Problem) (s1 s2 : nat) :
  no_aux_problem P = true ->
  match standard_form P s1, standard_form P s2 with
  | Ok f1, Ok f2 =>
      sf_maximize f1 = sf_maximize f2 /\ sf_obj f1 = sf_obj f2 /\
      sf_eq f1 = sf_eq f2 /\ sf_ineq f1 = sf_ineq f2 /\
      length (sf_vars f1) = length (sf_vars f2) /\
      (forall n, index_of (User n) (sf_vars f1) = index_of (User n) (sf_vars f2)) /\
      (forall k, index_of (Aux (s1 + k)) (sf_vars f1) = index_of (Aux (s2 + k)) (sf_vars f2))
  | Err e1, Err e2 => e1 = e2
  | _, _ => False
  end.
Proof.
  intros H. rewrite (standard_form_ren s1 P H), (standard_form_ren s2 P H).
  destruct (standard_form P 0) as [f|e]; cbn; [|reflexivity].
  rewrite !length_map.
  repeat split; try reflexivity.
  - intros n. change (User n) with (ren_var s1 (User n)) at 1.
    change (User n) with (ren_var s2 (User n)).
    now rewrite !index_of_ren.
  - intros k. change (Aux (s1 + k)) with (ren_var s1 (Aux k)).
    change (Aux (s2 + k)) with (ren_var s2 (Aux k)).
    now rewrite !index_of_ren.
Qed.

Lemma standard_form_deterministic_witness :
  let P := mkProblem (Minimize (EAbs (EVar (User 0)))) [CLe (EConst 1) (EVar (User 1))] in
  no_aux_problem P = true /\
  match standard_form P 0, standard_form P 5 with
  | Ok f1, Ok f2 =>
      sf_maximize f1 = sf_maximize f2 /\ sf_obj f1 = sf_obj f2 /\
      sf_eq f1 = sf_eq f2 /\ sf_ineq f1 = sf_ineq f2 /\
      length (sf_vars f1) = length (sf_vars f2) /\
      (forall n, index_of (User n) (sf_vars f1) = index_of (User n) (sf_vars f2)) /\
      (forall k, index_of (Aux (0 + k)) (sf_vars f1) = index_of (Aux (5 + k)) (sf_vars f2))
  | Err e1, Err e2 => e1 = e2
  | _, _ => False
  end.
Proof.
  intros P. split; [reflexivity|].
  apply standard_form_deterministic; reflexivity.
Defined.

(** *** Writing solved values back *)

Lemma in_nodup_first v l : In v (nodup_first l) <-> In v l.
Proof.
  induction l as [|w l IH]; cbn; [tauto|].
  rewrite filter_In, IH. split.
  - intros [-> | [H _]]; auto.
  - intros [-> | H]; [now left|].
    destruct (var_eqb w v) eqn:E.
    + left; now apply var_eqb_eq.
    + right; split; [exact H | reflexivity].
Qed.

Lemma nodup_first_NoDup l : NoDup (nodup_first l).
Proof.
  induction l as [|w l IH]; cbn; constructor.
  - rewrite filter_In. intros [_ H]. now rewrite var_eqb_refl in H.
  - apply NoDup_filter, IH.
Qed.

Lemma canon_expr_user_vars n e m e' cs n' :
  canon_expr e m = (e', cs, n') ->
  (In (User n) (vars_expr e' ++ flat_map vars_constr cs) <-> In (User n) (vars_expr e)).
Proof.
  revert m e' cs n'; induction e; intros m e'' cs n' E; cbn [canon_expr] in E.
  - inversion E; subst; cbn; tauto.
  - inversion E; subst; cbn; tauto.
  - destruct (canon_expr e m) as [[a cs1] n1] eqn:E1; inversion E; subst.
    cbn [vars_expr]. exact (IHe m a cs n' E1).
  - destruct (canon_expr e1 m) as [[a cs1] n1] eqn:E1.
    destruct (canon_expr e2 n1) as [[b cs2] n2] eqn:E2; inversion E; subst.
    specialize (IHe1 m a cs1 n1 E1); specialize (IHe2 n1 b cs2 n' E2).
    cbn [vars_expr]; rewrite flat_map_app, !in_app_iff in *. tauto.
  - destruct (canon_expr e m) as [[a cs1] n1] eqn:E1; inversion E; subst.
    cbn [vars_expr]. exact (IHe m a cs n' E1).
  - destruct (canon_expr e m) as [[a cs1] n1] eqn:E1; inversion E; subst.
    specialize (IHe m a cs1 n1 E1).
    cbn [vars_expr]. rewrite in_app_iff, flat_map_app, in_app_iff.
    cbn [flat_map vars_constr vars_expr]. rewrite !in_app_iff. cbn [In].
    rewrite <- IHe, in_app_iff.
    intuition discriminate.
Qed.

Lemma canon_constr_user_vars n k m ks n' :
  canon_constr k m = (ks, n') ->
  (In (User n) (flat_map vars_constr ks) <-> In (User n) (vars_constr k)).
Proof.
  destruct k as [l r | l r]; cbn [canon_constr]; intros E;
  destruct (canon_expr l m) as [[a cs1] n1] eqn:E1;
  destruct (canon_expr r n1) as [[b cs2] n2] eqn:E2; inversion E; subst;
  pose proof (canon_expr_user_vars n l m a cs1 n1 E1) as H1;
  pose proof (canon_expr_user_vars n r n1 b cs2 n' E2) as H2;
  cbn [flat_map vars_constr]; rewrite flat_map_app, !in_app_iff in *; tauto.
Qed.

Lemma canon_constrs_user_vars n cs m ks n' :
  canon_constrs cs m = (ks, n') ->
  (In (User n) (flat_map vars_constr ks) <-> In (User n) (flat_map vars_constr cs)).
Proof.
  revert m ks n'; induction cs as [|k cs IH]; intros m ks n' E; cbn [canon_constrs] in E.
  - inversion E; subst; tauto.
  - destruct (canon_constr k m) as [ks1 n1] eqn:E1.
    destruct (canon_constrs cs n1) as [ks2 n2] eqn:E2; inversion E; subst.
    pose proof (canon_constr_user_vars n k m ks1 n1 E1).
    specialize (IH n1 ks2 n' E2).
    cbn [flat_map]; rewrite flat_map_app, !in_app_iff in *; tauto.
Qed.

Lemma canon_problem_user_vars n P s :
  In (User n) (vars_problem (fst (canon_problem P s))) <-> In (User n) (vars_problem P).
Proof.
  unfold canon_problem, vars_problem.
  destruct (canon_expr (obj_expr (objective_of P)) s) as [[a cs1] n1] eqn:E1.
  destruct (canon_constrs (constraints_of P) n1) as [ks n2] eqn:E2.
  pose proof (canon_expr_user_vars n _ s a cs1 n1 E1).
  pose proof (canon_constrs_user_vars n _ n1 ks n2 E2).
  cbn [fst objective_of constraints_of]. rewrite obj_expr_with.
  rewrite flat_map_app, !in_app_iff in *; tauto.
Qed.

Lemma standard_form_vars P s sf :
  standard_form P s = Ok sf -> sf_vars sf = nodup_first (vars_problem (fst (canon_problem P s))).
Proof.
  unfold standard_form, build_std.
  destruct (lin _); cbn; [|discriminate].
  destruct (rows_of _ _); cbn; [|discriminate].
  intros E; inversion E; reflexivity.
Qed.

Lemma index_of_lt v l i : index_of v l = Some i -> (i < length l)%nat.
Proof.
  revert i; induction l as [|w l IH]; intros i; cbn; [discriminate|].
  destruct (var_eqb v w); [intros E; inversion E; lia|].
  destruct (index_of v l) as [j|] eqn:E; intros H; inversion H; subst.
  specialize (IH j eq_refl); lia.
Qed.

Lemma scatter_spec ord x st :
  NoDup ord -> length x = length ord ->
  forall n,
  (In (User n) ord ->
     count_occ Nat.eq_dec (snd (scatter ord x st)) n = 1%nat /\
     exists i, index_of (User n) ord = Some i /\
               fst (scatter ord x st) n = mkSlot (var_shape (st n)) (nth_error x i)) /\
  (~ In (User n) ord ->
     count_occ Nat.eq_dec (snd (scatter ord x st)) n = 0%nat /\
     fst (scatter ord x st) n = st n).
Proof.
  revert x st; induction ord as [|v ord IH]; intros x st Hnd Hlen n.
  - cbn; split; [intros []|]; auto.
  - destruct x as [|xi x]; [discriminate|].
    inversion Hnd as [|? ? Hv Hnd']; subst.
    cbn in Hlen; injection Hlen as Hlen.
    destruct v as [m|k].
    + cbn [scatter]. specialize (IH x (slot_set st m xi) Hnd' Hlen).
      destruct (scatter ord x (slot_set st m xi)) as [st' log] eqn:Es. cbn [fst snd] in *.
      destruct (Nat.eq_dec n m) as [->|Hnm].
      * destruct (IH m) as [_ Hout]. destruct (Hout Hv) as [Hc Hs].
        split; [|intros H; exfalso; apply H; now left].
        intros _. cbn. destruct (Nat.eq_dec m m) as [_|]; [|congruence].
        rewrite Hc. split; [reflexivity|].
        exists 0%nat; split; [cbn; now rewrite Nat.eqb_refl|].
        rewrite Hs. unfold slot_set. now rewrite Nat.eqb_refl.
      * assert (Hin : In (User n) (User m :: ord) <-> In (User n) ord).
        { cbn; split; [intros [H|H]; [congruence|exact H] | now right]. }
        assert (Hset : slot_set st m xi n = st n).
        { unfold slot_set. now rewrite (proj2 (Nat.eqb_neq n m) Hnm). }
        cbn [count_occ]. destruct (Nat.eq_dec m n) as [|_]; [congruence|].
        destruct (IH n) as [Hi Ho]. rewrite Hin. split.
        -- intros H; destruct (Hi H) as [Hc [i [Hidx Hs]]].
           split; [exact Hc|]. exists (S i).
           cbn; rewrite (proj2 (Nat.eqb_neq n m) Hnm), Hidx.
           split; [reflexivity|]. now rewrite Hs, Hset.
        -- intros H; destruct (Ho H) as [Hc Hs]. split; [exact Hc|]. now rewrite Hs, Hset.
    + cbn [scatter]. specialize (IH x st Hnd' Hlen n) as [Hi Ho].
      assert (Hin : In (User n) (Aux k :: ord) <-> In (User n) ord).
      { cbn; split; [intros [H|H]; [discriminate|exact H] | now right]. }
      rewrite Hin. split.
      * intros H; destruct (Hi H) as [Hc [i [Hidx Hs]]].
        split; [exact Hc|]. exists (S i). cbn; rewrite Hidx. split; [reflexivity|exact Hs].
      * exact Ho.
Qed.

(** C8: when the solver returns an optimal primal vector for the standard
    form, [solve] writes the value slot of each user variable of the problem
    exactly once, with the entry of the primal vector at that variable's
    position, keeps its shape, and leaves every other variable's slots
    untouched; entries at the positions of auxiliary variables are written
    nowhere. The problem itself is an input of [solve] and is not changed. *)
Theorem solve_writes_user_values (solver : std_form -> solver_status) (P : Problem)
    (start : nat) (st : store) (sf : std_form) (x : list R) :
  standard_form P start = Ok sf -> solver sf = Optimal x -> length x = length (sf_vars sf) ->
  exists st' log,
    solve solver P start st = Solved st' log /\
    (forall n, In (User n) (vars_problem P) ->
       count_occ Nat.eq_dec log n = 1%nat /\
       exists i, index_of (User n) (sf_vars sf) = Some i /\ nth_error x i <> None /\
                 st' n = mkSlot (var_shape (st n)) (nth_error x i)) /\
    (forall n, ~ In (User n) (vars_problem P) ->
       count_occ Nat.eq_dec log n = 0%nat /\ st' n = st n).
Proof.
  intros Hsf Hsol Hlen.
  pose proof (standard_form_vars P start sf Hsf) as Hv.
  assert (Hnd : NoDup (sf_vars sf)) by (rewrite Hv; apply nodup_first_NoDup).
  assert (Hiff : forall n, In (User n) (sf_vars sf) <-> In (User n) (vars_problem P)).
  { intros n; rewrite Hv, in_nodup_first; apply canon_problem_user_vars. }
  exists (fst (scatter (sf_vars sf) x st)), (snd (scatter (sf_vars sf) x st)).
  split.
  - unfold solve; rewrite Hsf, Hsol, Hlen, Nat.eqb_refl.
    destruct (scatter (sf_vars sf) x st); reflexivity.
  - split; intros n Hn; rewrite <- Hiff in Hn;
      destruct (scatter_spec (sf_vars sf) x st Hnd Hlen n) as [Hi Ho].
    + destruct (Hi Hn) as [Hc [i [Hidx Hs]]].
      split; [exact Hc|]. exists i. split; [exact Hidx|]. split; [|exact Hs].
      apply nth_error_Some. rewrite Hlen. eapply index_of_lt; exact Hidx.
    + exact (Ho Hn).
Qed.

Lemma solve_writes_user_values_witness :
  let P := mkProblem
             (Minimize (EAdd (EAbs (EAdd (EVar (User 2)) (ENeg (EVar (User 0))))) (EVar (User 1))))
             [CLe (EVar (User 0)) (EConst 3); CEq (EVar (User 1)) (EVar (User 2))] in
  let sf := match standard_form P 5 with
            | Ok sf => sf
            | Err _ => mkStdForm [] false ([], 0) [] [] end in
  let x := [2; 1; 1; 3] in
  let solver := fun _ : std_form => Optimal x in
  let st := fun n : nat => if Nat.eqb n 0 then mkSlot [] (Some 9)
                           else if Nat.eqb n 7 then mkSlot [2%nat] (Some 4)
                           else mkSlot [] None in
  sf_vars sf = [Aux 5; User 1; User 2; User 0] /\
  (match solve solver P 5 st with
   | Solved st' log => log = [1; 2; 0]%nat /\ var_value (st' 0%nat) = Some 3 /\
                       var_value (st' 1%nat) = Some 1 /\ var_value (st' 2%nat) = Some 1 /\
                       st' 7%nat = st 7%nat
   | _ => False
   end) /\
  standard_form P 5 = Ok sf /\ solver sf = Optimal x /\ length x = length (sf_vars sf) /\
  exists st' log,
    solve solver P 5 st = Solved st' log /\
    (forall n, In (User n) (vars_problem P) ->
       count_occ Nat.eq_dec log n = 1%nat /\
       exists i, index_of (User n) (sf_vars sf) = Some i /\ nth_error x i <> None /\
                 st' n = mkSlot (var_shape (st n)) (nth_error x i)) /\
    (forall n, ~ In (User n) (vars_problem P) ->
       count_occ Nat.eq_dec log n = 0%nat /\ st' n = st n).
Proof.
  intros P sf x solver st.
  split; [reflexivity|].
  split; [repeat split; reflexivity|].
  split; [reflexivity|]. split; [reflexivity|]. split; [reflexivity|].
  apply (solve_writes_user_values solver P 5 st sf x); reflexivity.
Defined.

(** ** Further properties of the notebook code *)

(** *** Python's [+], [sum] and [==] on the values the notebook builds *)

Lemma py_val_int rho z : py_val rho (PyInt z) = IZR z.
Proof. reflexivity. Qed.

Lemma py_val_add rho a b : py_val rho (py_add a b) = py_val rho a + py_val rho b.
Proof. destruct a, b; unfold py_val; cbn; try reflexivity. apply plus_IZR. Qed.

Lemma py_sum_acc rho xs acc :
  py_val rho (fold_left py_add xs acc) = py_val rho acc + sum_R (map (py_val rho) xs).
Proof.
  revert acc; induction xs as [|x xs IH]; intros acc; cbn; [lra|].
  rewrite IH, py_val_add. lra.
Qed.

Lemma py_sum_val rho xs : py_val rho (py_sum xs) = sum_R (map (py_val rho) xs).
Proof. unfold py_sum. rewrite py_sum_acc, py_val_int. lra. Qed.

Lemma py_is_int_add a b : py_is_int (py_add a b) = py_is_int a && py_is_int b.
Proof. destruct a, b; reflexivity. Qed.

Lemma py_sum_is_int_acc xs acc :
  py_is_int (fold_left py_add xs acc) = py_is_int acc && forallb py_is_int xs.
Proof.
  revert acc; induction xs as [|x xs IH]; intros acc; cbn; [now rewrite andb_true_r|].
  rewrite IH, py_is_int_add. now rewrite andb_assoc.
Qed.

Lemma py_eq_holds rho a b : holds_py rho (py_eq a b) <-> py_val rho a = py_val rho b.
Proof.
  destruct a as [x|e1], b as [y|e2]; unfold py_val; cbn; try tauto.
  rewrite Z.eqb_eq. split; [intros ->; reflexivity | apply eq_IZR].
Qed.

Lemma node_holds_iff n rho :
  feasible_py (Node_constraints n) rho <->
  sum_R (map (py_val rho) (edge_flows n)) = py_val rho (accumulation n).
Proof.
  unfold feasible_py, Node_constraints; cbn [all_hold].
  rewrite py_eq_holds, py_sum_val. tauto.
Qed.

Lemma edge_holds_iff e rho :
  feasible_py (Edge_constraints e) rho <-> - capacity e <= rho (flow e) <= capacity e.
Proof. unfold feasible_py, Edge_constraints; cbn. rewrite Rabs_le_iff. tauto. Qed.

(** X1: Python's [sum] over a node's [edge_flows], although it starts from
    the integer [0], evaluates at every point to the sum of the values of
    the entries. *)
Theorem py_sum_value (rho : var -> R) (xs : list pyval) :
  py_val rho (py_sum xs) = sum_R (map (py_val rho) xs).
Proof. apply py_sum_val. Qed.

(** X2: [Node.constraints] returns a plain Python [bool] (rather than a CVXPY
    constraint) exactly when the accumulation and every entry of
    [edge_flows] are Python numbers. *)
Theorem Node_constraints_bool_iff (n : Node) :
  (exists b, Node_constraints n = [PyBool b]) <->
  py_is_int (accumulation n) = true /\ forallb py_is_int (edge_flows n) = true.
Proof.
  unfold Node_constraints, py_sum.
  pose proof (py_sum_is_int_acc (edge_flows n) (PyInt 0)) as H; cbn in H.
  destruct (fold_left py_add (edge_flows n) (PyInt 0)) as [z | e];
    destruct (accumulation n) as [y | f]; cbn in H |- *;
    split; intros Hx.
  - split; [reflexivity | congruence].
  - eexists; reflexivity.
  - destruct Hx as [b Hb]; discriminate.
  - destruct Hx as [Hf _]; discriminate.
  - destruct Hx as [b Hb]; discriminate.
  - destruct Hx as [_ Hf]; congruence.
  - destruct Hx as [b Hb]; discriminate.
  - destruct Hx as [Hf _]; discriminate.
Qed.

(** X3: the one entry [Node.constraints] returns holds at a point exactly
    when the values of the node's [edge_flows] sum to the value of its
    accumulation, whether Python returned a [bool] or a constraint. *)
Theorem Node_constraints_holds (n : Node) (rho : var -> R) :
  feasible_py (Node_constraints n) rho <->
  sum_R (map (py_val rho) (edge_flows n)) = py_val rho (accumulation n).
Proof. apply node_holds_iff. Qed.

(** X4: the constraint [Edge.constraints] returns holds exactly when the
    edge's flow lies between [-capacity] and [capacity]; with a negative
    capacity it holds nowhere. *)
Theorem Edge_constraints_holds (e : Edge) (rho : var -> R) :
  (feasible_py (Edge_constraints e) rho <-> - capacity e <= rho (flow e) <= capacity e) /\
  (capacity e < 0 -> ~ feasible_py (Edge_constraints e) rho).
Proof.
  split; [apply edge_holds_iff|].
  intros Hc H; apply edge_holds_iff in H. lra.
Qed.

(** *** The assembly loop *)

Lemma collect_length objs : length (collect_constraints objs) = length objs.
Proof.
  rewrite collect_constraints_concat.
  induction objs as [|o objs IH]; cbn; [reflexivity|].
  rewrite length_app, IH. destruct o; reflexivity.
Qed.

Lemma collect_feasible_iff objs rho :
  feasible_py (collect_constraints objs) rho <->
  forall o, In o objs -> feasible_py (contributor_constraints o) rho.
Proof.
  rewrite collect_constraints_concat. unfold feasible_py.
  induction objs as [|o objs IH]; cbn; [tauto|].
  rewrite all_hold_app, IH. split.
  - intros [Ho Hr] o' [<- | Hin]; auto.
  - intros H; split; [apply H; now left | intros o' Hin; apply H; now right].
Qed.

(** X5: the loop [for obj in nodes + edges: constraints += obj.constraints()]
    adds exactly one entry per object, and a point satisfies the assembled
    list exactly when it satisfies the constraints of every object. *)
Theorem collect_constraints_feasible (objs : list contributor) (rho : var -> R) :
  length (collect_constraints objs) = length objs /\
  (feasible_py (collect_constraints objs) rho <->
   forall o, In o objs -> feasible_py (contributor_constraints o) rho).
Proof. split; [apply collect_length | apply collect_feasible_iff]. Qed.

(** X6: an edge with a negative capacity among the collected objects makes
    the assembled constraint list unsatisfiable. *)
Theorem negative_capacity_infeasible (objs : list contributor) (e : Edge) :
  In (CEdge e) objs -> capacity e < 0 ->
  forall rho, ~ feasible_py (collect_constraints objs) rho.
Proof.
  intros Hin Hc rho Hf.
  apply collect_feasible_iff with (o := CEdge e) in Hf; [|exact Hin].
  cbn in Hf; apply edge_holds_iff in Hf. lra.
Qed.

Lemma negative_capacity_infeasible_witness :
  In (CEdge (edge1 (-1))) [CNode Node_default; CEdge (edge1 (-1))] /\ capacity (edge1 (-1)) < 0 /\
  forall rho, ~ feasible_py (collect_constraints [CNode Node_default; CEdge (edge1 (-1))]) rho.
Proof.
  split; [right; now left|]. split; [cbn; lra|].
  apply negative_capacity_infeasible with (e := edge1 (-1)); [right; now left | cbn; lra].
Defined.

(** *** Runs of [Edge.connect] *)

Lemma Edge_connect_at e a b h i :
  Edge_connect e a b h i =
  mkNode (accumulation (h i))
    (edge_flows (h i) ++ (if Nat.eqb a i then [PyExpr (ENeg (EVar (flow e)))] else [])
                      ++ (if Nat.eqb b i then [PyExpr (EVar (flow e))] else [])).
Proof.
  unfold Edge_connect, heap_upd, append_flow.
  repeat match goal with |- context [Nat.eqb ?x ?y] => destruct (Nat.eqb_spec x y) end;
    subst; cbn; try congruence; rewrite <- ?app_assoc, ?app_nil_r; cbn; try reflexivity;
    match goal with |- context [h ?j] => destruct (h j) end; reflexivity.
Qed.

Lemma connect_all_at cs h i :
  connect_all cs h i = mkNode (accumulation (h i)) (edge_flows (h i) ++ appended_flows cs i).
Proof.
  unfold connect_all.
  revert h; induction cs as [|[[e a] b] cs IH]; intros h; cbn.
  - rewrite app_nil_r. destruct (h i); reflexivity.
  - rewrite IH, Edge_connect_at; cbn. rewrite <- !app_assoc. reflexivity.
Qed.

Lemma sum_R_app l1 l2 : sum_R (l1 ++ l2) = sum_R l1 + sum_R l2.
Proof. induction l1 as [|x l1 IH]; cbn; [lra|]. rewrite IH; lra. Qed.

Lemma appended_sum rho cs i :
  sum_R (map (py_val rho) (appended_flows cs i)) =
  sum_R (map (fun '(e, a, b) => incidence_entry a b i * rho (flow e)) cs).
Proof.
  induction cs as [|[[e a] b] cs IH]; unfold appended_flows in *;
    cbn [flat_map map sum_R]; [reflexivity|].
  rewrite map_app, sum_R_app, IH. unfold incidence_entry.
  destruct (Nat.eqb a i), (Nat.eqb b i); cbn; unfold py_val; cbn; lra.
Qed.

(** X7: after any run of [edge.connect(node1, node2)] calls, every node keeps
    its accumulation and its [edge_flows] is its former list followed by the
    entries the calls appended to it, in call order: [-flow] for each call
    where it is [node1], then [flow] for each call where it is [node2]. *)
Theorem connect_all_node (cs : list (Edge * nat * nat)) (h : heap) (i : nat) :
  connect_all cs h i = mkNode (accumulation (h i)) (edge_flows (h i) ++ appended_flows cs i).
Proof. apply connect_all_at. Qed.

(** X8: after any run of [connect] calls, the sum of a node's [edge_flows]
    is its former sum plus the node's row of the incidence matrix (+1 for an
    edge entering it, -1 for an edge leaving it) times the edges' flows. *)
Theorem connect_node_sum (cs : list (Edge * nat * nat)) (h : heap) (i : nat) (rho : var -> R) :
  py_val rho (py_sum (edge_flows (connect_all cs h i))) =
  py_val rho (py_sum (edge_flows (h i))) +
  sum_R (map (fun '(e, a, b) => incidence_entry a b i * rho (flow e)) cs).
Proof.
  rewrite connect_all_at; cbn [edge_flows].
  rewrite !py_sum_val, map_app, sum_R_app, appended_sum. reflexivity.
Qed.

Lemma appended_flows_perm cs cs' i :
  Permutation cs cs' -> Permutation (appended_flows cs i) (appended_flows cs' i).
Proof.
  induction 1; cbn.
  - constructor.
  - apply Permutation_app_head; assumption.
  - rewrite !app_assoc. apply Permutation_app_tail, Permutation_app_comm.
  - eapply Permutation_trans; eassumption.
Qed.

Lemma sum_R_perm l l' : Permutation l l' -> sum_R l = sum_R l'.
Proof. induction 1; cbn; lra. Qed.

(** X9: connecting the same edges in another order changes at most the
    order of the entries of each node's [edge_flows]: accumulations are the
    same, the lists are permutations of each other, and each node's
    conservation constraint holds at the same points. *)
Theorem connect_order_irrelevant (cs cs' : list (Edge * nat * nat)) (h : heap) (i : nat)
    (rho : var -> R) :
  Permutation cs cs' ->
  accumulation (connect_all cs h i) = accumulation (connect_all cs' h i) /\
  Permutation (edge_flows (connect_all cs h i)) (edge_flows (connect_all cs' h i)) /\
  (feasible_py (Node_constraints (connect_all cs h i)) rho <->
   feasible_py (Node_constraints (connect_all cs' h i)) rho).
Proof.
  intros Hp.
  assert (Hf : Permutation (edge_flows (h i) ++ appended_flows cs i)
                           (edge_flows (h i) ++ appended_flows cs' i)).
  { apply Permutation_app_head, appended_flows_perm, Hp. }
  rewrite !node_holds_iff, !connect_all_at; cbn [accumulation edge_flows].
  split; [reflexivity|]. split; [exact Hf|].
  rewrite (sum_R_perm _ _ (Permutation_map (py_val rho) Hf)). tauto.
Qed.

Lemma connect_order_irrelevant_witness :
  let cs := [(edge1 1, 0%nat, 1%nat); (edge3 1, 0%nat, 3%nat)] in
  let cs' := [(edge3 1, 0%nat, 3%nat); (edge1 1, 0%nat, 1%nat)] in
  let rho := net_point 1 0 1 (-2) 0 in
  Permutation cs cs' /\
  accumulation (connect_all cs net_heap0 0%nat) = accumulation (connect_all cs' net_heap0 0%nat) /\
  Permutation (edge_flows (connect_all cs net_heap0 0%nat)) (edge_flows (connect_all cs' net_heap0 0%nat)) /\
  (feasible_py (Node_constraints (connect_all cs net_heap0 0%nat)) rho <->
   feasible_py (Node_constraints (connect_all cs' net_heap0 0%nat)) rho).
Proof.
  intros cs cs' rho.
  split; [apply perm_swap|].
  apply connect_order_irrelevant, perm_swap.
Defined.

Lemma sum_R_map_ext {A : Type} (f g : A -> R) l :
  (forall x, In x l -> f x = g x) -> sum_R (map f l) = sum_R (map g l).
Proof.
  induction l as [|x l IH]; cbn; intros H; [reflexivity|].
  rewrite (H x (or_introl eq_refl)), IH; [reflexivity|]. intros y Hy; apply H; now right.
Qed.

Lemma sum_R_map_plus {A : Type} (f g : A -> R) l :
  sum_R (map (fun x => f x + g x) l) = sum_R (map f l) + sum_R (map g l).
Proof. induction l as [|x l IH]; cbn; [lra|]. rewrite IH; lra. Qed.

Lemma sum_R_map_zero {A : Type} (l : list A) : sum_R (map (fun _ => 0) l) = 0.
Proof. induction l as [|x l IH]; cbn; [reflexivity|]. rewrite IH; lra. Qed.

Lemma sum_R_indicator ns b f :
  NoDup ns -> In b ns -> sum_R (map (fun j => (if Nat.eqb b j then 1 else 0) * f) ns) = f.
Proof.
  induction 1 as [|x l Hx Hnd IH]; cbn; [tauto|].
  intros [Hxb | Hin].
  - subst b. rewrite Nat.eqb_refl.
    assert (Z : sum_R (map (fun j => (if Nat.eqb x j then 1 else 0) * f) l) = 0).
    { clear IH Hnd. induction l as [|y l IHl]; cbn; [reflexivity|].
      destruct (Nat.eqb_spec x y) as [->|_]; [exfalso; apply Hx; now left|].
      rewrite IHl; [lra|]. intros H; apply Hx; now right. }
    lra.
  - destruct (Nat.eqb_spec b x) as [->|_]; [contradiction|]. rewrite IH by assumption. lra.
Qed.

Lemma sum_R_incidence ns a b f :
  NoDup ns -> In a ns -> In b ns ->
  sum_R (map (fun j => incidence_entry a b j * f) ns) = 0.
Proof.
  intros Hnd Ha Hb.
  rewrite (sum_R_map_ext _ (fun j => (if Nat.eqb b j then 1 else 0) * f +
                                     (if Nat.eqb a j then 1 else 0) * (- f)))
    by (intros j _; unfold incidence_entry; ring).
  rewrite sum_R_map_plus, !sum_R_indicator by assumption. lra.
Qed.

Lemma sum_incidence_rows ns cs rho :
  NoDup ns -> (forall e a b, In (e, a, b) cs -> In a ns /\ In b ns) ->
  sum_R (map (fun j => sum_R (map (fun '(e, a, b) => incidence_entry a b j * rho (flow e)) cs)) ns)
  = 0.
Proof.
  intros Hnd; induction cs as [|[[e a] b] cs IH]; intros Hends; cbn.
  - apply sum_R_map_zero.
  - rewrite sum_R_map_plus, IH.
    + destruct (Hends e a b (or_introl eq_refl)) as [Ha Hb].
      rewrite sum_R_incidence by assumption. lra.
    + intros e' a' b' Hin; apply (Hends e' a' b'); now right.
Qed.

(** X10: in a network whose nodes [ns] start with empty [edge_flows] (as
    [Node.__init__] leaves them) and whose edges are all connected between
    nodes of [ns], every point satisfying all the nodes' conservation
    constraints gives the accumulations a total of zero: what the sources
    supply, the sinks take. *)
Theorem total_accumulation_zero (cs : list (Edge * nat * nat)) (h : heap) (ns : list nat)
    (rho : var -> R) :
  NoDup ns ->
  (forall e a b, In (e, a, b) cs -> In a ns /\ In b ns) ->
  (forall j, In j ns -> edge_flows (h j) = []) ->
  (forall j, In j ns -> feasible_py (Node_constraints (connect_all cs h j)) rho) ->
  sum_R (map (fun j => py_val rho (accumulation (h j))) ns) = 0.
Proof.
  intros Hnd Hends Hempty Hfeas.
  rewrite (sum_R_map_ext _ (fun j => sum_R (map (fun '(e, a, b) =>
                                                   incidence_entry a b j * rho (flow e)) cs))).
  - apply sum_incidence_rows; assumption.
  - intros j Hj. specialize (Hfeas j Hj). apply node_holds_iff in Hfeas.
    rewrite connect_all_at in Hfeas; cbn [accumulation edge_flows] in Hfeas.
    rewrite (Hempty j Hj) in Hfeas; cbn [app] in Hfeas.
    rewrite appended_sum in Hfeas. lra.
Qed.

Lemma total_accumulation_zero_witness :
  let cs := [(edge1 1, 0%nat, 1%nat); (edge2 1, 1%nat, 3%nat); (edge3 1, 0%nat, 3%nat)] in
  let ns := [0; 1; 2; 3]%nat in
  let rho := net_point 1 1 1 (-2) 2 in
  NoDup ns /\
  (forall e a b, In (e, a, b) cs -> In a ns /\ In b ns) /\
  (forall j, In j ns -> edge_flows (net_heap0 j) = []) /\
  (forall j, In j ns -> feasible_py (Node_constraints (connect_all cs net_heap0 j)) rho) /\
  sum_R (map (fun j => py_val rho (accumulation (net_heap0 j))) ns) = 0.
Proof.
  intros cs ns rho.
  assert (H1 : NoDup ns).
  { repeat constructor; cbn; intuition discriminate. }
  assert (H2 : forall e a b, In (e, a, b) cs -> In a ns /\ In b ns).
  { intros e a b Hin; cbn in Hin.
    destruct Hin as [H | [H | [H | []]]]; injection H as <- <- <-; cbn; tauto. }
  assert (H3 : forall j, In j ns -> edge_flows (net_heap0 j) = []).
  { intros j [<- | [<- | [<- | [<- | []]]]]; reflexivity. }
  assert (H4 : forall j, In j ns -> feasible_py (Node_constraints (connect_all cs net_heap0 j)) rho).
  { intros j [<- | [<- | [<- | [<- | []]]]]; cbn; lra. }
  split; [exact H1|]. split; [exact H2|]. split; [exact H3|]. split; [exact H4|].
  apply (total_accumulation_zero cs net_heap0 ns rho H1 H2 H3 H4).
Defined.

Lemma sum_flows_upd_fresh rho t r l :
  forallb (fun f => negb (occurs t (to_expr f))) l = true ->
  sum_R (map (py_val (var_upd rho t r)) l) = sum_R (map (py_val rho) l).
Proof.
  induction l as [|x l IH]; cbn; intros H; [reflexivity|].
  apply andb_true_iff in H as [Hx Hl]. apply negb_true_iff in Hx.
  unfold py_val at 1 3. rewrite eval_upd_fresh by exact Hx. rewrite IH by exact Hl. reflexivity.
Qed.

Lemma incidence_other_edges rho t cs i :
  (forall e' x y, In (e', x, y) cs -> flow e' <> t) ->
  sum_R (map (fun '(e, a, b) => incidence_entry a b i * negate_at rho t (flow e)) cs) =
  sum_R (map (fun '(e, a, b) => incidence_entry a b i * rho (flow e)) cs).
Proof.
  intros H. apply sum_R_map_ext. intros [[e a] b] Hin.
  specialize (H e a b Hin).
  unfold negate_at, var_upd.
  destruct (var_eqb t (flow e)) eqn:E; [apply var_eqb_eq in E; congruence | reflexivity].
Qed.

(** X11: an [Edge] is undirected: connecting it as [connect(n2, n1)] instead
    of [connect(n1, n2)] gives every node a conservation constraint that
    holds at a point exactly when the original one holds at that point with
    the edge's flow negated, and the edge's own capacity constraint does not
    see the sign of its flow. This needs the flow to belong to this edge
    only and not to appear in the node's initial accumulation or flows. *)
Theorem connect_reversed_edge (cs1 cs2 : list (Edge * nat * nat)) (e : Edge) (a b : nat)
    (h : heap) (i : nat) (rho : var -> R) :
  (forall e' x y, In (e', x, y) (cs1 ++ cs2) -> flow e' <> flow e) ->
  occurs (flow e) (to_expr (accumulation (h i))) = false ->
  forallb (fun f => negb (occurs (flow e) (to_expr f))) (edge_flows (h i)) = true ->
  (feasible_py (Node_constraints (connect_all (cs1 ++ (e, b, a) :: cs2) h i))
               (negate_at rho (flow e)) <->
   feasible_py (Node_constraints (connect_all (cs1 ++ (e, a, b) :: cs2) h i)) rho) /\
  (feasible_py (Edge_constraints e) (negate_at rho (flow e)) <->
   feasible_py (Edge_constraints e) rho).
Proof.
  intros Hfresh Hacc Hflows.
  assert (Hf1 : forall e' x y, In (e', x, y) cs1 -> flow e' <> flow e)
    by (intros e' x y Hin; apply (Hfresh e' x y), in_or_app; now left).
  assert (Hf2 : forall e' x y, In (e', x, y) cs2 -> flow e' <> flow e)
    by (intros e' x y Hin; apply (Hfresh e' x y), in_or_app; now right).
  assert (Hself : negate_at rho (flow e) (flow e) = - rho (flow e))
    by (unfold negate_at, var_upd; now rewrite var_eqb_refl).
  split.
  - rewrite !node_holds_iff, !connect_all_at; cbn [accumulation edge_flows].
    rewrite !map_app, !sum_R_app, !appended_sum, !map_app, !sum_R_app; cbn [map sum_R].
    unfold negate_at at 1 2 3 4.
    rewrite sum_flows_upd_fresh by exact Hflows.
    fold (negate_at rho (flow e)).
    rewrite !incidence_other_edges by assumption.
    rewrite Hself.
    assert (Ha : py_val (negate_at rho (flow e)) (accumulation (h i)) =
                 py_val rho (accumulation (h i)))
      by (unfold py_val, negate_at; now rewrite eval_upd_fresh).
    rewrite Ha.
    assert (Hinc : incidence_entry b a i = - incidence_entry a b i)
      by (unfold incidence_entry; ring).
    rewrite Hinc. split; intros; lra.
  - rewrite !edge_holds_iff, Hself. split; intros; lra.
Qed.

Lemma connect_reversed_edge_witness :
  let rho := net_point 1 1 0 0 0 in
  (forall e' x y, In (e', x, y) ([] ++ [(edge2 1, 1%nat, 3%nat)]) -> flow e' <> flow (edge1 1)) /\
  occurs (flow (edge1 1)) (to_expr (accumulation (net_heap0 1%nat))) = false /\
  forallb (fun f => negb (occurs (flow (edge1 1)) (to_expr f))) (edge_flows (net_heap0 1%nat)) = true /\
  (feasible_py (Node_constraints (connect_all ([] ++ (edge1 1, 1%nat, 0%nat) :: [(edge2 1, 1%nat, 3%nat)])
                                               net_heap0 1%nat)) (negate_at rho (flow (edge1 1))) <->
   feasible_py (Node_constraints (connect_all ([] ++ (edge1 1, 0%nat, 1%nat) :: [(edge2 1, 1%nat, 3%nat)])
                                               net_heap0 1%nat)) rho) /\
  (feasible_py (Edge_constraints (edge1 1)) (negate_at rho (flow (edge1 1))) <->
   feasible_py (Edge_constraints (edge1 1)) rho).
Proof.
  intros rho.
  assert (H1 : forall e' x y, In (e', x, y) ([] ++ [(edge2 1, 1%nat, 3%nat)]) ->
                              flow e' <> flow (edge1 1)).
  { intros e' x y [H | []]; injection H as <- _ _; cbn; discriminate. }
  split; [exact H1|]. split; [reflexivity|]. split; [reflexivity|].
  apply (connect_reversed_edge [] [(edge2 1, 1%nat, 3%nat)] (edge1 1) 0%nat 1%nat net_heap0 1%nat rho H1);
    reflexivity.
Defined.
